(** * FetchFS: a read-only file system backed by HTTP downloads

    A shallow embedding of [src/src/Fetch.ts] (class [FetchFS] and the
    module functions [fetchFile], [fetchSize], [convertError]) and of the
    places where the later revision [src/unnamed/part_000] differs
    (constructor, [preloadFile]).

    - JavaScript objects that the code mutates through references (the
      [Stats] record reached by [inode.data] / [inode.stats]) live in a
      heap indexed by locations; the index tree holds locations only, so
      a write [stats.size = n] is a heap write and the tree never changes.
    - Every method is a computation in a state and exception monad over
      the file system object, the heap and the log of HTTP requests.
    - The transport ([fetch]) is a section variable [net]: it answers a
      request as a function of the requests issued before it, so every
      statement holds for every behaviour of the network.
    - A method is first given as a whole, its network [await] answered
      by [net] at once: that is the method when no other call runs
      before it ends.  The methods that await the network are then split
      at the [await] into the part before and the part after, so that
      other calls can run in between ([start] and [resume]).  The
      [await] on the readiness promise suspends the caller while the
      promise is pending. *)

From Stdlib Require Import String Ascii List ZArith Bool Lia Strings.Byte.
Import ListNotations.
Open Scope string_scope.
Open Scope Z_scope.

(** ** JavaScript values used by the code *)

(** A JavaScript [number] as far as this code observes it: [NaN], or the
    [Number] of an integer [z] (which is [z] itself up to [2^53], and has
    the sign of [z] always).  The code stores such numbers and compares
    them with [0]. *)
Inductive number : Type :=
| NaN
| Num (z : Z).

(** [a < 0] on numbers: false on [NaN]. *)
Definition lt0 (a : number) : bool :=
  match a with
  | NaN => false
  | Num z => z <? 0
  end.

Definition Uint8Array : Type := list byte.

(** [buffer.length] *)
Definition length_of (b : Uint8Array) : number := Num (Z.of_nat (List.length b)).

(** [s.charAt(n)]: the one-character string at [n], or [""] out of range. *)
Definition charAt (s : string) (n : nat) : string :=
  match String.get n s with
  | Some c => String c ""
  | None => ""
  end.

(** [s.slice(1)] *)
Definition slice1 (s : string) : string :=
  match s with
  | "" => ""
  | String _ r => r
  end.

(** [s.at(-1)]: the last character, [None] for [undefined]. *)
Definition at_last (s : string) : option string :=
  match String.length s with
  | O => None
  | S n => Some (charAt s n)
  end.

(** *** [parseInt(s, 10)] *)

(** White space that [parseInt] skips, among the code units a header
    value can hold: TAB, LF, VT, FF, CR, SP and NBSP. *)
Definition isWhiteSpace (c : ascii) : bool :=
  let n := nat_of_ascii c in
  existsb (Nat.eqb n) [9; 10; 11; 12; 13; 32; 160]%nat.

Fixpoint trimStart (s : string) : string :=
  match s with
  | "" => ""
  | String c r => if isWhiteSpace c then trimStart r else s
  end.

Definition digit_of (c : ascii) : option Z :=
  let n := nat_of_ascii c in
  if ((48 <=? n) && (n <=? 57))%nat then Some (Z.of_nat (n - 48)) else None.

(** The longest prefix of decimal digits, read as an integer; [acc] is
    [None] until a digit has been seen. *)
Fixpoint digits (s : string) (acc : option Z) : option Z :=
  match s with
  | "" => acc
  | String c r =>
      match digit_of c with
      | Some d => digits r (Some (10 * match acc with Some a => a | None => 0 end + d))
      | None => acc
      end
  end.

Definition parseInt (s : string) : number :=
  let t := trimStart s in
  let '(sign, body) :=
    match t with
    | String "-" r => (-1, r)
    | String "+" r => (1, r)
    | _ => (1, t)
    end in
  match digits body None with
  | None => NaN
  | Some n => Num (sign * n)
  end.

(** [h || '-1'] on the result of [headers.get]: [null] and the empty
    string are falsy. *)
Definition or_default (h : option string) (d : string) : string :=
  match h with
  | None => d
  | Some "" => d
  | Some s => s
  end.

(** ** Errors *)

Inductive ErrorCode : Type := EPERM | ENOENT | EIO | EACCES | EISDIR | EINVAL.

(** What a method throws: an [ApiError] with its code, or the [TypeError]
    JavaScript raises when a member of [undefined] is read. *)
Inductive error : Type :=
| ApiError (code : ErrorCode)
| TypeError.

(** ** The index and the stats records *)

Definition loc : Type := nat.

(** The fields of the core library's [Stats] that this code reads or
    writes. *)
Record Stats : Type := mkStats {
  size : number;
  mode : Z;
  fileData : option Uint8Array
}.

Definition set_size (n : number) (st : Stats) : Stats :=
  mkStats n (mode st) (fileData st).

Definition set_fileData (d : option Uint8Array) (st : Stats) : Stats :=
  mkStats (size st) (mode st) d.

(** [Stats.clone(stats)] *)
Definition Stats_clone (st : Stats) : Stats :=
  mkStats (size st) (mode st) (fileData st).

(** An inode holds a reference to its stats record. *)
#[warnings="-register-all"]
Inductive IndexInode : Type :=
| IndexFileInode (data : loc)
| IndexDirInode (stats : loc) (children : list (string * IndexInode)).

Definition FileIndex : Type := IndexInode.

Definition Heap : Type := loc -> Stats.

Definition heap_set (h : Heap) (l : loc) (st : Stats) : Heap :=
  fun l' => if Nat.eqb l' l then st else h l'.

(** A listing: [null] is a file, a nested object a directory (the
    docstring of [FetchFS]). *)
#[warnings="-register-all"]
Inductive Listing : Type :=
| LNull
| LObject (entries : list (string * Listing)).

Definition ListingTree : Type := list (string * Listing).

(** *** The file index

    [FileIndex.ts] is not among the sources at hand; its three entry
    points used by [FetchFS] are modelled from the specification. *)

(** Modelled from the spec: [FileIndex.ts] is missing.  The path is split
    on the separator after one leading separator is stripped; empty
    segments left by trailing separators are ignored. *)
Fixpoint split_sep (s : string) : list string :=
  match s with
  | "" => [""]
  | String c r =>
      if Ascii.eqb c "/" then "" :: split_sep r
      else match split_sep r with
           | h :: t => String c h :: t
           | [] => [String c ""]
           end
  end.

Fixpoint drop_trailing_empty (l : list string) : list string :=
  match l with
  | [] => []
  | x :: r =>
      match drop_trailing_empty r with
      | [] => if String.eqb x "" then [] else [x]
      | r' => x :: r'
      end
  end.

Definition strip_leading_sep (p : string) : string :=
  match p with
  | String "/" r => r
  | _ => p
  end.

Definition segments (p : string) : list string :=
  drop_trailing_empty (split_sep (strip_leading_sep p)).

Fixpoint lookup_child (name : string) (cs : list (string * IndexInode)) : option IndexInode :=
  match cs with
  | [] => None
  | (n, c) :: r => if String.eqb n name then Some c else lookup_child name r
  end.

(** Modelled from the spec: path resolution of the missing
    [FileIndex.ts] descends segment by segment; a missing child or a file
    in the way gives no node. *)
Fixpoint descend (segs : list string) (n : IndexInode) : option IndexInode :=
  match segs with
  | [] => Some n
  | seg :: rest =>
      match n with
      | IndexFileInode _ => None
      | IndexDirInode _ cs =>
          match lookup_child seg cs with
          | Some c => descend rest c
          | None => None
          end
      end
  end.

(** Modelled from the spec: [FileIndex.getInode] of the missing
    [FileIndex.ts], the non-throwing path resolution ("getNode(path) ->
    IndexNode | absent"); the empty path is the root. *)
Definition getInode (idx : FileIndex) (path : string) : option IndexInode :=
  descend (segments path) idx.

(** Modelled from the spec: [FileIndex.files] of the missing
    [FileIndex.ts], every file node by depth-first traversal; a file
    node is given by the location of its [data]. *)
Fixpoint files (n : IndexInode) : list loc :=
  match n with
  | IndexFileInode l => [l]
  | IndexDirInode _ cs => flat_map (fun p => files (snd p)) cs
  end.

(** The stats locations of the directory nodes. *)
Fixpoint dirs (n : IndexInode) : list loc :=
  match n with
  | IndexFileInode _ => []
  | IndexDirInode l cs => l :: flat_map (fun p => dirs (snd p)) cs
  end.

(** Modelled from the spec: the type guards [isIndexFileInode] and
    [isIndexDirInode] of the missing [FileIndex.ts]; an absent inode is
    neither. *)
Definition isIndexFileInode (i : option IndexInode) : bool :=
  match i with
  | Some (IndexFileInode _) => true
  | _ => false
  end.

Definition isIndexDirInode (i : option IndexInode) : bool :=
  match i with
  | Some (IndexDirInode _ _) => true
  | _ => false
  end.

Definition S_IFREG : Z := 32768.
Definition S_IFDIR : Z := 16384.

(** Modelled from the spec: the stats [FromListing] of the missing
    [FileIndex.ts] gives a file that has not been opened (unknown size
    [-1], read-only file bits, no cached bytes) and a directory. *)
Definition fresh_file_stats : Stats := mkStats (Num (-1)) (Z.lor S_IFREG 365) None.

Definition fresh_dir_stats : Stats := mkStats (Num 4096) (Z.lor S_IFDIR 365) None.

Fixpoint has_sep (name : string) : bool :=
  match name with
  | "" => false
  | String c r => Ascii.eqb c "/" || has_sep r
  end.

(** Modelled from the spec: [FromListing] of the missing [FileIndex.ts]
    on the entries of one directory, left to right, each built by
    [build_one]; a name with a separator is rejected. *)
Definition build_entries
    (build_one : Listing -> Heap -> loc -> option (IndexInode * Heap * loc)) :=
  fix go (es : list (string * Listing)) (h : Heap) (next : loc)
    : option (list (string * IndexInode) * Heap * loc) :=
    match es with
    | [] => Some ([], h, next)
    | (name, l) :: r =>
        if has_sep name then None
        else
          match build_one l h next with
          | None => None
          | Some (c, h1, n1) =>
              match go r h1 n1 with
              | None => None
              | Some (cs, h2, n2) => Some ((name, c) :: cs, h2, n2)
              end
          end
    end.

(** Modelled from the spec: [FileIndex.FromListing] of the missing
    [FileIndex.ts].  Every node gets a stats record of its own, allocated
    at the next free location; a name with a separator is rejected. *)
Fixpoint build (l : Listing) (h : Heap) (next : loc) : option (IndexInode * Heap * loc) :=
  match l with
  | LNull => Some (IndexFileInode next, heap_set h next fresh_file_stats, S next)
  | LObject es =>
      match build_entries build es (heap_set h next fresh_dir_stats) (S next) with
      | None => None
      | Some (cs, h', n') => Some (IndexDirInode next cs, h', n')
      end
  end.

Definition FromListing (t : ListingTree) (h : Heap) (next : loc) : option (FileIndex * Heap * loc) :=
  build (LObject t) h next.

(** ** The transport *)

Inductive http_method : Type := GET | HEAD.

Record request : Type := mkRequest {
  req_method : http_method;
  req_url : string
}.

(** What the code reads of a [Response]: [ok], [status], the result of
    [headers.get('Content-Length')] ([None] for [null]), and the results
    of [arrayBuffer()] and [json()] ([None] when the promise rejects). *)
Record Response : Type := mkResponse {
  ok : bool;
  status : Z;
  contentLength : option string;
  arrayBuffer : option Uint8Array;
  json : option ListingTree
}.

(** The promise returned by [fetch]: rejected, or resolved to a response. *)
Inductive fetch_outcome : Type :=
| NetworkError
| Resolved (r : Response).

(** ** The file system object *)

(** The readiness promise [_ready].  While it is pending it carries the
    answer the transport will deliver to the index request. *)
Inductive Promise : Type :=
| Pending (answer : fetch_outcome)
| Fulfilled
| Rejected (e : error).

(** The fields of [FetchFS], with the heap of stats records and the log
    of the requests issued so far (most recent first). *)
Record FetchFS : Type := mkFS {
  prefixUrl : string;
  _index : option FileIndex;
  _ready : Promise;
  heap : Heap;
  next_loc : loc;
  requests : list request
}.

Definition with_prefixUrl (u : string) (s : FetchFS) : FetchFS :=
  mkFS u (_index s) (_ready s) (heap s) (next_loc s) (requests s).

Definition with_index (i : FileIndex) (h : Heap) (n : loc) (s : FetchFS) : FetchFS :=
  mkFS (prefixUrl s) (Some i) (_ready s) h n (requests s).

Definition with_ready (p : Promise) (s : FetchFS) : FetchFS :=
  mkFS (prefixUrl s) (_index s) p (heap s) (next_loc s) (requests s).

Definition with_heap (h : Heap) (s : FetchFS) : FetchFS :=
  mkFS (prefixUrl s) (_index s) (_ready s) h (next_loc s) (requests s).

Definition with_request (r : request) (s : FetchFS) : FetchFS :=
  mkFS (prefixUrl s) (_index s) (_ready s) (heap s) (next_loc s) (r :: requests s).

(** ** The monad of methods *)

(** A call returns, throws, or is suspended on the readiness promise. *)
Inductive outcome (A : Type) : Type :=
| Return (a : A)
| Throw (e : error)
| Suspended.

Arguments Return {A} a.
Arguments Throw {A} e.
Arguments Suspended {A}.

Definition M (A : Type) : Type := FetchFS -> outcome A * FetchFS.

Definition ret {A : Type} (a : A) : M A := fun s => (Return a, s).

Definition throw {A : Type} (e : error) : M A := fun s => (Throw e, s).

Definition bind {A B : Type} (c : M A) (k : A -> M B) : M B :=
  fun s =>
    match c s with
    | (Return a, s') => k a s'
    | (Throw e, s') => (Throw e, s')
    | (Suspended, s') => (Suspended, s')
    end.

Declare Scope fetch_scope.
Delimit Scope fetch_scope with fetch.
Notation "x <- c ;; k" := (bind c (fun x => k))
  (at level 61, c at next level, right associativity) : fetch_scope.
Notation "c ;; k" := (bind c (fun _ => k))
  (at level 61, right associativity) : fetch_scope.
Open Scope fetch_scope.

(** [for (const x of xs) body(x)] *)
Fixpoint for_of {A : Type} (xs : list A) (body : A -> M unit) : M unit :=
  match xs with
  | [] => ret tt
  | x :: r => body x ;; for_of r body
  end.

(** [this._index], about to be dereferenced: a [TypeError] while the
    field is still [undefined]. *)
Definition this_index : M FileIndex :=
  fun s =>
    match _index s with
    | Some i => (Return i, s)
    | None => (Throw TypeError, s)
    end.

(** Reading a field of a stats object. *)
Definition read (l : loc) : M Stats := fun s => (Return (heap s l), s).

(** Writing a field of a stats object. *)
Definition write (l : loc) (f : Stats -> Stats) : M unit :=
  fun s => (Return tt, with_heap (heap_set (heap s) l (f (heap s l))) s).

(** [inode.data] and [inode.stats]: the field exists on one kind of inode
    only and is [undefined] on the other. *)
Definition data_of (i : IndexInode) : option loc :=
  match i with
  | IndexFileInode d => Some d
  | IndexDirInode _ _ => None
  end.

Definition stats_of (i : IndexInode) : option loc :=
  match i with
  | IndexFileInode _ => None
  | IndexDirInode st _ => Some st
  end.

(** Using a field of an object reference that may be [undefined]. *)
Definition deref (o : option loc) : M loc :=
  match o with
  | Some l => ret l
  | None => throw TypeError
  end.

(** Modelled from the spec: [inode.toStats()] of the missing
    [FileIndex.ts]; the access check is made "per the node's stats". *)
Definition toStats (i : IndexInode) : M Stats :=
  match i with
  | IndexFileInode d => read d
  | IndexDirInode st _ => read st
  end.

(** The core library's [FileFlag], by the two things the code asks of it. *)
Record FileFlag : Type := mkFlag {
  isWriteable : bool;
  flag_mode : Z
}.

(** The [stats] argument of a [NoSyncFile]: a clone, or the shared record
    itself. *)
Inductive stats_arg : Type :=
| Cloned (st : Stats)
| Shared (l : loc).

(** [new NoSyncFile(this, path, flag, stats, contents)].  The constructor
    belongs to the core library and is taken to accept its arguments; it
    may reject contents whose length is not the size in the stats, as on
    a directory (no contents, a size of its own), an error the model
    does not have.  No statement relies on a handle whose contents and
    size disagree. *)
Record NoSyncFile : Type := mkFile {
  file_path : string;
  file_flag : FileFlag;
  file_stats : stats_arg;
  contents : option Uint8Array
}.

(** [fd.buffer] of the core library: the contents, empty when none were
    given. *)
Definition buffer_of (fd : NoSyncFile) : Uint8Array :=
  match contents fd with
  | Some b => b
  | None => []
  end.

Definition R_OK : Z := 4.

Inductive download_type : Type := buffer | json_type.

(** The overloads of [fetchFile]: a [Uint8Array] for ['buffer'], the
    parsed listing for ['json']. *)
Definition downloaded (t : download_type) : Type :=
  match t with
  | buffer => Uint8Array
  | json_type => ListingTree
  end.

(** The configuration [{ index, baseUrl }]; [None] is an omitted field. *)
Record FetchOptions : Type := mkOptions {
  opt_index : option (string + ListingTree);
  opt_baseUrl : option string
}.

Section FetchFS.

(** [fetch]: the answer to a request, given the requests issued before. *)
Variable net : list request -> request -> fetch_outcome.

(** Credentials, and [Stats.hasAccess(mode, cred)] of the core library
    as a function of the stats' mode bits. *)
Variable Cred : Type.
Variable hasAccess : Z -> Z -> Cred -> bool.

Definition fetch (m : http_method) (url : string) : M fetch_outcome :=
  fun s =>
    let r := mkRequest m url in
    (Return (net (requests s) r), with_request r s).

(** [convertError]: every transport error becomes [EIO]. *)
Definition convertError {A : Type} : M A := throw (ApiError EIO).

(** [fetchFile] after [fetch(p)] has settled.  The [default] branch of
    its [switch] has no counterpart: a [download_type] is one of the two. *)
Definition fetchFile_settled (o : fetch_outcome) (type : download_type) : M (downloaded type) :=
  match o with
  | NetworkError => convertError
  | Resolved response =>
      if negb (ok response) then throw (ApiError EIO)
      else
        match type as t return M (downloaded t) with
        | buffer =>
            match arrayBuffer response with
            | Some b => ret b
            | None => convertError
            end
        | json_type =>
            match json response with
            | Some j => ret j
            | None => convertError
            end
        end
  end.

Definition fetchFile (p : string) (type : download_type) : M (downloaded type) :=
  o <- fetch GET p ;;
  fetchFile_settled o type.

Definition fetchSize (p : string) : M number :=
  o <- fetch HEAD p ;;
  match o with
  | NetworkError => convertError
  | Resolved response =>
      if negb (ok response) then throw (ApiError EIO)
      else ret (parseInt (or_default (contentLength response) "-1"))
  end.

(** [ready]: await the readiness promise, then return [this]. *)
Definition await_ready : M unit :=
  fun s =>
    match _ready s with
    | Pending _ => (Suspended, s)
    | Fulfilled => (Return tt, s)
    | Rejected e => (Throw e, s)
    end.

Definition ready : M unit := await_ready.

(** [this._index = FileIndex.FromListing(index)] *)
Definition set_index (index : ListingTree) : M unit :=
  fun s =>
    match FromListing index (heap s) (next_loc s) with
    | Some (i, h, n) => (Return tt, with_index i h n s)
    | None => (Throw (ApiError EINVAL), s)
    end.

(** [loadIndex], run in one go. *)
Definition loadIndex (index : string + ListingTree) : M unit :=
  listing <- match index with
             | inl url => fetchFile url json_type
             | inr tree => ret tree
             end ;;
  set_index listing.

(** [loadIndex] after its [await]. *)
Definition loadIndex_settled (o : fetch_outcome) : M unit :=
  index <- fetchFile_settled o json_type ;;
  set_index index.

(** The promise an [async] body leaves behind once it has run. *)
Definition settle_with (c : M unit) (s : FetchFS) : FetchFS :=
  match c s with
  | (Return _, s') => with_ready Fulfilled s'
  | (Throw e, s') => with_ready (Rejected e) s'
  | (Suspended, s') => s'
  end.

(** [this._ready = this.loadIndex(index)]: an inline listing is indexed
    before the call returns; for a URL the request is issued and the
    promise stays pending until [settle]. *)
Definition start_loadIndex (index : string + ListingTree) (s : FetchFS) : FetchFS :=
  match index with
  | inl url =>
      match fetch GET url s with
      | (Return o, s') => with_ready (Pending o) s'
      | (_, s') => s'
      end
  | inr tree => settle_with (set_index tree) s
  end.

(** The turn of the event loop in which the index request completes. *)
Definition settle (s : FetchFS) : FetchFS :=
  match _ready s with
  | Pending o => settle_with (loadIndex_settled o) s
  | _ => s
  end.

(** The object before the constructor body runs. *)
Definition blank : FetchFS :=
  mkFS "" None Fulfilled (fun _ => fresh_file_stats) O [].

(** [if (!index) index = 'index.json']: an omitted index and the empty
    string are falsy. *)
Definition index_or_default (i : option (string + ListingTree)) : string + ListingTree :=
  match i with
  | None => inl "index.json"
  | Some (inl "") => inl "index.json"
  | Some i' => i'
  end.

Definition normalize_baseUrl (baseUrl : string) : string :=
  if (0 <? String.length baseUrl)%nat
     && negb (String.eqb (charAt baseUrl (String.length baseUrl - 1)) "/")
  then baseUrl ++ "/"
  else baseUrl.

Definition constructor (opts : FetchOptions) : FetchFS :=
  let index := index_or_default (opt_index opts) in
  let baseUrl := match opt_baseUrl opts with Some b => b | None => "" end in
  let s := start_loadIndex index blank in
  with_prefixUrl (normalize_baseUrl baseUrl) s.

Definition empty : M unit :=
  idx <- this_index ;;
  for_of (files idx) (fun file => write file (set_fileData None)).

Definition preloadFile (path : string) (buf : Uint8Array) : M unit :=
  idx <- this_index ;;
  let inode := getInode idx path in
  if negb (isIndexFileInode inode) then throw (ApiError EISDIR)
  else
    match inode with
    | None => throw (ApiError ENOENT)
    | Some inode =>
        stats <- deref (data_of inode) ;;
        write stats (set_size (length_of buf)) ;;
        write stats (set_fileData (Some buf))
    end.

Definition _getRemotePath (filePath : string) : M string :=
  fun s =>
    let filePath := if String.eqb (charAt filePath 0) "/" then slice1 filePath else filePath in
    (Return (prefixUrl s ++ filePath), s).

Definition _fetchFile (p : string) (type : download_type) : M (downloaded type) :=
  url <- _getRemotePath p ;;
  fetchFile url type.

Definition _fetchSize (path : string) : M number :=
  url <- _getRemotePath path ;;
  fetchSize url.

(** [stat] returns the stats record itself, by reference. *)
Definition stat (path : string) (cred : Cred) : M loc :=
  idx <- this_index ;;
  match getInode idx path with
  | None => throw (ApiError ENOENT)
  | Some inode =>
      st <- toStats inode ;;
      if negb (hasAccess (mode st) R_OK cred) then throw (ApiError EACCES)
      else if isIndexDirInode (Some inode) then deref (stats_of inode)
      else if isIndexFileInode (Some inode) then
        stats <- deref (data_of inode) ;;
        cur <- read stats ;;
        (if lt0 (size cur)
         then n <- _fetchSize path ;; write stats (set_size n)
         else ret tt) ;;
        ret stats
      else throw (ApiError EINVAL)
  end.

Definition openFile (path : string) (flag : FileFlag) (cred : Cred) : M NoSyncFile :=
  if isWriteable flag then throw (ApiError EPERM)
  else
    idx <- this_index ;;
    match getInode idx path with
    | None => throw (ApiError ENOENT)
    | Some inode =>
        st <- toStats inode ;;
        if negb (hasAccess (mode st) (flag_mode flag) cred) then throw (ApiError EACCES)
        else if isIndexDirInode (Some inode) then
          stats <- deref (stats_of inode) ;;
          cur <- read stats ;;
          ret (mkFile path flag (Shared stats) (fileData cur))
        else
          stats <- deref (data_of inode) ;;
          cur <- read stats ;;
          match fileData cur with
          | Some cached => ret (mkFile path flag (Cloned (Stats_clone cur)) (Some cached))
          | None =>
              data <- _fetchFile path buffer ;;
              write stats (set_size (length_of data)) ;;
              write stats (set_fileData (Some data)) ;;
              fresh <- read stats ;;
              ret (mkFile path flag (Cloned (Stats_clone fresh)) (Some data))
          end
    end.

(** [fd.close()] of a [NoSyncFile] does nothing. *)
Definition close (fd : NoSyncFile) : M unit := ret tt.

Definition readFile (fname : string) (flag : FileFlag) (cred : Cred) : M Uint8Array :=
  fd <- openFile fname flag cred ;;
  let result := buffer_of fd in
  close fd ;;
  ret result.

End FetchFS.

Arguments stat net {Cred} hasAccess path cred.
Arguments openFile net {Cred} hasAccess path flag cred.
Arguments readFile net {Cred} hasAccess fname flag cred.

(** ** The revision in [src/unnamed/part_000]

    The later revision keeps [empty], [_getRemotePath], [fetchFile] and
    [fetchSize] as they are, moves [stat] and [openFile] into a base class
    of the core library (their file branches stay as [statFileInode] and
    [openFileInode], with the same bodies), and changes the constructor,
    the initialisation and the first test of [preloadFile]. *)
Module Zen.

(** [if (baseUrl.at(-1) != '/') baseUrl += '/'] *)
Definition normalize_baseUrl (baseUrl : string) : string :=
  match at_last baseUrl with
  | Some c => if String.eqb c "/" then baseUrl else baseUrl ++ "/"
  | None => baseUrl ++ "/"
  end.

(** [_initialize] after its first [await]: any failure inside the [try]
    block becomes [EINVAL]; [response.ok] is not looked at. *)
Definition _initialize_settled (o : fetch_outcome) : M unit :=
  match o with
  | NetworkError => throw (ApiError EINVAL)
  | Resolved response =>
      match json response with
      | Some j => set_index j
      | None => throw (ApiError EINVAL)
      end
  end.

Definition start_initialize (net : list request -> request -> fetch_outcome)
    (index : string + ListingTree) (s : FetchFS) : FetchFS :=
  match index with
  | inr tree => settle_with (set_index tree) s
  | inl url =>
      match fetch net GET url s with
      | (Return o, s') => with_ready (Pending o) s'
      | (_, s') => s'
      end
  end.

(** The turn of the event loop in which the index request completes. *)
Definition settle (s : FetchFS) : FetchFS :=
  match _ready s with
  | Pending o => settle_with (_initialize_settled o) s
  | _ => s
  end.

(** The default parameters [{ index = 'index.json', baseUrl = '' }] apply
    to omitted fields only. *)
Definition constructor (net : list request -> request -> fetch_outcome)
    (opts : FetchOptions) : FetchFS :=
  let index := match opt_index opts with Some i => i | None => inl "index.json" end in
  let baseUrl := match opt_baseUrl opts with Some b => b | None => "" end in
  let s := with_prefixUrl (normalize_baseUrl baseUrl) blank in
  start_initialize net index s.

(** [inode.isFile()] on the result of [this._index.get(path)]: a
    [TypeError] when there is no inode. *)
Definition isFile (i : option IndexInode) : M bool :=
  match i with
  | None => throw TypeError
  | Some inode => ret (isIndexFileInode (Some inode))
  end.

Definition preloadFile (path : string) (buf : Uint8Array) : M unit :=
  idx <- this_index ;;
  let inode := getInode idx path in
  file <- isFile inode ;;
  if negb file then throw (ApiError EISDIR)
  else
    match inode with
    | None => throw (ApiError ENOENT)
    | Some inode =>
        stats <- deref (data_of inode) ;;
        write stats (set_size (length_of buf)) ;;
        write stats (set_fileData (Some buf))
    end.

End Zen.

(** ** Calls, reachable states and invariants *)

Definition is_head (r : request) : bool :=
  match req_method r with
  | HEAD => true
  | GET => false
  end.

(** The number of HEAD requests in a log. *)
Definition count_head (rs : list request) : nat := List.length (filter is_head rs).

(** The URL [_getRemotePath] computes, as a function of the object. *)
Definition remote_url (s : FetchFS) (path : string) : string :=
  prefixUrl s ++ (if String.eqb (charAt path 0) "/" then slice1 path else path).

(** A stats record whose cached bytes, if any, have the recorded size. *)
Definition slot_consistent (st : Stats) : Prop :=
  forall b, fileData st = Some b -> size st = length_of b.

(** Every file node of the index has a consistent stats record. *)
Definition cache_consistent (s : FetchFS) : Prop :=
  forall idx, _index s = Some idx ->
  forall l, In l (files idx) -> slot_consistent (heap s l).

(** No file node shares its stats record with a directory node. *)
Definition index_wf (idx : FileIndex) : Prop :=
  forall l, In l (files idx) -> ~ In l (dirs idx).

(** The state [preloadFile] leaves on a file node: both fields of its
    stats record written, nothing else touched. *)
Definition preloaded (s : FetchFS) (l : loc) (buf : Uint8Array) : FetchFS :=
  with_heap
    (heap_set (heap_set (heap s) l (set_size (length_of buf) (heap s l))) l
       (mkStats (length_of buf) (mode (heap s l)) (Some buf)))
    (with_heap (heap_set (heap s) l (set_size (length_of buf) (heap s l))) s).

(** The state [openFile] leaves after it has fetched the bytes [b] of
    the file node [l]: the request logged, both fields written. *)
Definition fetched (s : FetchFS) (path : string) (l : loc) (b : Uint8Array) : FetchFS :=
  preloaded (with_request (mkRequest GET (remote_url s path)) s) l b.

(** The state [stat] leaves after it has asked for the size of the file
    node [l] and got [n]. *)
Definition sized (s : FetchFS) (path : string) (l : loc) (n : number) : FetchFS :=
  with_heap (heap_set (heap s) l (set_size n (heap s l)))
    (with_request (mkRequest HEAD (remote_url s path)) s).

(** What no method call changes: the fields of the object and the mode
    bits of every stats record. *)
Definition same_object (s s' : FetchFS) : Prop :=
  prefixUrl s' = prefixUrl s
  /\ _index s' = _index s
  /\ _ready s' = _ready s
  /\ next_loc s' = next_loc s
  /\ (forall l, mode (heap s' l) = mode (heap s l)).

(** The file node [l] holds the bytes [b] with their size. *)
Definition holds_bytes (s : FetchFS) (l : loc) (b : Uint8Array) : Prop :=
  fileData (heap s l) = Some b /\ size (heap s l) = length_of b.

(** What a call of [ready], [stat], [openFile] or [readFile] can do to the
    state: nothing, log a request that fails, or log a request and store
    what it returned in a node that lacked it. *)
Inductive lazy_effect (s : FetchFS) : FetchFS -> Prop :=
| effect_none : lazy_effect s s
| effect_request (r : request) : lazy_effect s (with_request r s)
| effect_sized (path : string) (l : loc) (n : number) :
    lt0 (size (heap s l)) = true -> lazy_effect s (sized s path l n)
| effect_fetched (path : string) (l : loc) (b : Uint8Array) :
    fileData (heap s l) = None -> lazy_effect s (fetched s path l b).

(** What any call can do: the above, or the writes of [preloadFile] and
    [empty]. *)
Inductive effect (s : FetchFS) : FetchFS -> Prop :=
| effect_lazy (s' : FetchFS) : lazy_effect s s' -> effect s s'
| effect_preloaded (l : loc) (b : Uint8Array) : effect s (preloaded s l b)
| effect_emptied (idx : FileIndex) (h : Heap) :
    _index s = Some idx ->
    (forall l, In l (files idx) -> h l = set_fileData None (heap s l)) ->
    (forall l, ~ In l (files idx) -> h l = heap s l) ->
    effect s (with_heap h s).

(** What building nodes from location [n] on does: the locations used are
    those in [[n, n')], records below [n] are untouched, the file nodes
    [fs] have fresh records, and no file shares a record with one of the
    directories [ds]. *)
Definition allocates (n n' : loc) (h h' : Heap) (fs ds : list loc) : Prop :=
  (n <= n')%nat
  /\ (forall x, (x < n)%nat -> h' x = h x)
  /\ (forall x, In x fs -> (n <= x < n')%nat /\ h' x = fresh_file_stats)
  /\ (forall x, In x ds -> (n <= x < n')%nat)
  /\ (forall x, In x fs -> ~ In x ds).

(** The index is populated whenever the readiness promise is fulfilled. *)
Definition ready_matches_index (s : FetchFS) : Prop :=
  _ready s = Fulfilled -> exists idx, _index s = Some idx.

(** What [FileIndex.FromListing] does to the object when [loadIndex]
    assigns its result: nothing when it throws, otherwise a new index
    whose file nodes have fresh stats records. *)
Inductive indexing_effect (s : FetchFS) : FetchFS -> Prop :=
| indexing_failed : indexing_effect s s
| indexing_done (idx : FileIndex) (h : Heap) (n : loc) :
    index_wf idx ->
    (forall l, In l (files idx) -> h l = fresh_file_stats) ->
    indexing_effect s (with_index idx h n s).

(** The invariants of a file system object. *)
Definition fs_invariant (s : FetchFS) : Prop :=
  ready_matches_index s
  /\ cache_consistent s
  /\ (forall idx, _index s = Some idx -> index_wf idx).

Section Calls.

Variable net : list request -> request -> fetch_outcome.
Variable Cred : Type.
Variable hasAccess : Z -> Z -> Cred -> bool.

(** A call of a public method with its arguments.  ([readdir] and
    [metadata] run code of the base class, which is not at hand, and are
    not among them.) *)
Inductive call : Type :=
| Call_ready
| Call_loadIndex (index : string + ListingTree)
| Call_stat (path : string) (cred : Cred)
| Call_openFile (path : string) (flag : FileFlag) (cred : Cred)
| Call_readFile (path : string) (flag : FileFlag) (cred : Cred)
| Call_preloadFile (path : string) (buf : Uint8Array)
| Call_empty.

(** The state a call leaves behind, whatever its outcome. *)
Definition run (c : call) (s : FetchFS) : FetchFS :=
  match c with
  | Call_ready => snd (ready s)
  | Call_loadIndex index => snd (loadIndex net index s)
  | Call_stat path cred => snd (stat net hasAccess path cred s)
  | Call_openFile path flag cred => snd (openFile net hasAccess path flag cred s)
  | Call_readFile path flag cred => snd (readFile net hasAccess path flag cred s)
  | Call_preloadFile path buf => snd (preloadFile path buf s)
  | Call_empty => snd (empty s)
  end.

Definition run_all (cs : list call) (s : FetchFS) : FetchFS :=
  fold_left (fun s c => run c s) cs s.

(** The calls that neither clear nor overwrite cached bytes. *)
Definition keeps_cache (c : call) : bool :=
  match c with
  | Call_preloadFile _ _ | Call_empty | Call_loadIndex _ => false
  | _ => true
  end.

Definition is_loadIndex (c : call) : bool :=
  match c with
  | Call_loadIndex _ => true
  | _ => false
  end.

(** A sequence of calls none of which is [loadIndex]. *)
Definition without_loadIndex (cs : list call) : bool :=
  forallb (fun c => negb (is_loadIndex c)) cs.

(** The states a file system object goes through when its methods are
    called one after another, each call running to its end before the
    next starts: built by the constructor, then any calls, the index
    request completing at some point in between. *)
Inductive reachable : FetchFS -> Prop :=
| reach_new (opts : FetchOptions) : reachable (constructor net opts)
| reach_settle (s : FetchFS) : reachable s -> reachable (settle s)
| reach_call (c : call) (s : FetchFS) : reachable s -> reachable (run c s).

End Calls.

Arguments Call_ready {Cred}.
Arguments Call_loadIndex {Cred} index.
Arguments is_loadIndex {Cred} c.
Arguments without_loadIndex {Cred} cs.
Arguments Call_empty {Cred}.
Arguments Call_preloadFile {Cred} path buf.
Arguments Call_stat {Cred} path cred.
Arguments Call_openFile {Cred} path flag cred.
Arguments Call_readFile {Cred} path flag cred.
Arguments run net {Cred} hasAccess c s.
Arguments run_all net {Cred} hasAccess cs s.
Arguments keeps_cache {Cred} c.
Arguments reachable net {Cred} hasAccess s.

(** ** Calls that overlap

    A method that awaits the network is suspended there and other calls
    run before it resumes.  Such a method is split at its [await]: the
    part up to it, which issues the request, and the part after it,
    which handles the answer. *)

(** A method suspended at its network [await]: what it holds from before
    and the answer that is on its way. *)
Inductive pending_call : Type :=
| Awaiting_size (stats : loc) (answer : fetch_outcome)
| Awaiting_bytes (path : string) (flag : FileFlag) (stats : loc) (answer : fetch_outcome)
| Awaiting_listing (answer : fetch_outcome).

Section Overlap.

Variable net : list request -> request -> fetch_outcome.
Variable Cred : Type.
Variable hasAccess : Z -> Z -> Cred -> bool.

(** [fetchSize] after [fetch(p, { method: 'HEAD' })] has settled. *)
Definition fetchSize_settled (o : fetch_outcome) : M number :=
  match o with
  | NetworkError => convertError
  | Resolved response =>
      if negb (ok response) then throw (ApiError EIO)
      else ret (parseInt (or_default (contentLength response) "-1"))
  end.

(** [stat] up to [await this._fetchSize(path)]: it returns, throws, or
    has issued the HEAD request and is suspended. *)
Definition stat_start (path : string) (cred : Cred) : M (loc + pending_call) :=
  idx <- this_index ;;
  match getInode idx path with
  | None => throw (ApiError ENOENT)
  | Some inode =>
      st <- toStats inode ;;
      if negb (hasAccess (mode st) R_OK cred) then throw (ApiError EACCES)
      else if isIndexDirInode (Some inode) then
        l <- deref (stats_of inode) ;; ret (inl l)
      else if isIndexFileInode (Some inode) then
        stats <- deref (data_of inode) ;;
        cur <- read stats ;;
        if lt0 (size cur)
        then url <- _getRemotePath path ;;
             o <- fetch net HEAD url ;;
             ret (inr (Awaiting_size stats o))
        else ret (inl stats)
      else throw (ApiError EINVAL)
  end.

(** [stat] after the [await]: [stats.size = ...; return stats], with no
    second look at the record. *)
Definition stat_resume (stats : loc) (o : fetch_outcome) : M loc :=
  n <- fetchSize_settled o ;;
  write stats (set_size n) ;;
  ret stats.

(** [openFile] up to [await this._fetchFile(path, 'buffer')]. *)
Definition openFile_start (path : string) (flag : FileFlag) (cred : Cred)
  : M (NoSyncFile + pending_call) :=
  if isWriteable flag then throw (ApiError EPERM)
  else
    idx <- this_index ;;
    match getInode idx path with
    | None => throw (ApiError ENOENT)
    | Some inode =>
        st <- toStats inode ;;
        if negb (hasAccess (mode st) (flag_mode flag) cred) then throw (ApiError EACCES)
        else if isIndexDirInode (Some inode) then
          stats <- deref (stats_of inode) ;;
          cur <- read stats ;;
          ret (inl (mkFile path flag (Shared stats) (fileData cur)))
        else
          stats <- deref (data_of inode) ;;
          cur <- read stats ;;
          match fileData cur with
          | Some cached =>
              ret (inl (mkFile path flag (Cloned (Stats_clone cur)) (Some cached)))
          | None =>
              url <- _getRemotePath path ;;
              o <- fetch net GET url ;;
              ret (inr (Awaiting_bytes path flag stats o))
          end
    end.

(** [openFile] after the [await]: both fields are written, then the
    handle is made. *)
Definition openFile_resume (path : string) (flag : FileFlag) (stats : loc)
    (o : fetch_outcome) : M NoSyncFile :=
  data <- fetchFile_settled o buffer ;;
  write stats (set_size (length_of data)) ;;
  write stats (set_fileData (Some data)) ;;
  fresh <- read stats ;;
  ret (mkFile path flag (Cloned (Stats_clone fresh)) (Some data)).

(** [loadIndex] up to [await fetchFile(index, 'json')]; an inline listing
    is indexed without an [await]. *)
Definition loadIndex_start (index : string + ListingTree) : M (unit + pending_call) :=
  match index with
  | inl url => o <- fetch net GET url ;; ret (inr (Awaiting_listing o))
  | inr tree => set_index tree ;; ret (inl tt)
  end.

(** What is left suspended after the first part of a method. *)
Definition left_pending {A : Type} (r : outcome (A + pending_call) * FetchFS)
  : FetchFS * option pending_call :=
  (snd r, match fst r with
          | Return (inr k) => Some k
          | _ => None
          end).

(** A call runs until it returns, throws or is suspended at the
    network: the state it leaves, and its suspended rest if any.
    ([readFile] awaits [openFile]; [ready] awaits the readiness promise
    and touches nothing.) *)
Definition start (c : call Cred) (s : FetchFS) : FetchFS * option pending_call :=
  match c with
  | Call_ready => (snd (ready s), None)
  | Call_loadIndex index => left_pending (loadIndex_start index s)
  | Call_stat path cred => left_pending (stat_start path cred s)
  | Call_openFile path flag cred => left_pending (openFile_start path flag cred s)
  | Call_readFile path flag cred => left_pending (openFile_start path flag cred s)
  | Call_preloadFile path buf => (snd (preloadFile path buf s), None)
  | Call_empty => (snd (empty s), None)
  end.

(** The answer arrives and the suspended method runs to its end. *)
Definition resume (k : pending_call) (s : FetchFS) : FetchFS :=
  match k with
  | Awaiting_size stats o => snd (stat_resume stats o s)
  | Awaiting_bytes path flag stats o => snd (openFile_resume path flag stats o s)
  | Awaiting_listing o => snd (loadIndex_settled o s)
  end.

End Overlap.

Arguments stat_start net {Cred} hasAccess path cred.
Arguments openFile_start net {Cred} hasAccess path flag cred.
Arguments start net {Cred} hasAccess c s.

(** ** A small site used in the examples

    The listing [{"a.txt": null, "dir": {"b.txt": null}}] served from
    [https://x/]; every file holds the two bytes of ["hi"]. *)

Definition demo_listing : ListingTree :=
  [("a.txt", LNull); ("dir", LObject [("b.txt", LNull)])].

Definition hi : Uint8Array := [x68; x69]%byte.

(** Answers every request with the file and its length. *)
Definition demo_net (_ : list request) (_ : request) : fetch_outcome :=
  Resolved (mkResponse true 200 (Some "2") (Some hi) (Some demo_listing)).

(** A server that sends no [Content-Length]. *)
Definition silent_net (_ : list request) (_ : request) : fetch_outcome :=
  Resolved (mkResponse true 200 None (Some hi) (Some demo_listing)).

(** A server whose [Content-Length] is not a number. *)
Definition garbled_net (_ : list request) (_ : request) : fetch_outcome :=
  Resolved (mkResponse true 200 (Some "abc") (Some hi) (Some demo_listing)).

Definition anyone (_ _ : Z) (_ : unit) : bool := true.

Definition read_flag : FileFlag := mkFlag false 4.
Definition write_flag : FileFlag := mkFlag true 2.

Definition demo_options : FetchOptions :=
  mkOptions (Some (inr demo_listing)) (Some "https://x").

(** Built from the inline listing: ready at once. *)
Definition demo_fs : FetchFS := constructor demo_net demo_options.

(** The index [FromListing] builds for the demo listing. *)
Definition demo_index : FileIndex :=
  IndexDirInode 0%nat
    [("a.txt", IndexFileInode 1%nat);
     ("dir", IndexDirInode 2%nat [("b.txt", IndexFileInode 3%nat)])].

(** Built with the default options: the index is still being fetched. *)
Definition pending_fs : FetchFS := constructor demo_net (mkOptions None None).

(** ** Further notions used in the properties *)

(** The stats record an inode refers to, whichever its kind. *)
Definition record_of (i : IndexInode) : loc :=
  match i with
  | IndexFileInode d => d
  | IndexDirInode st _ => st
  end.

(** A string made of decimal digits only. *)
Fixpoint all_digits (s : string) : bool :=
  match s with
  | "" => true
  | String c r =>
      match digit_of c with
      | Some _ => all_digits r
      | None => false
      end
  end.

(** The error a computation ends with, if it throws. *)
Definition thrown {A : Type} (r : outcome A * FetchFS) : option error :=
  match fst r with
  | Throw e => Some e
  | _ => None
  end.

(** A response the code treats as a failure: the [fetch] promise rejects
    or the status is not a success. *)
Definition failed (o : fetch_outcome) : bool :=
  match o with
  | NetworkError => true
  | Resolved r => negb (ok r)
  end.

(** The bytes a response delivers: none when the request failed or the
    body cannot be read. *)
Definition body_of (o : fetch_outcome) : option Uint8Array :=
  match o with
  | NetworkError => None
  | Resolved r => if ok r then arrayBuffer r else None
  end.

(** The listing a response delivers, as [fetchFile] reads it. *)
Definition listing_of (o : fetch_outcome) : option ListingTree :=
  match o with
  | NetworkError => None
  | Resolved r => if ok r then json r else None
  end.

(** A transport that is down, a server that answers 404, and credentials
    that are refused everything. *)
Definition down_net (_ : list request) (_ : request) : fetch_outcome := NetworkError.

Definition not_found_net (_ : list request) (_ : request) : fetch_outcome :=
  Resolved (mkResponse false 404 None None (Some demo_listing)).

Definition no_one (_ _ : Z) (_ : unit) : bool := false.

(** The demo site after ["/a.txt"] has been opened once. *)
Definition opened_fs : FetchFS :=
  snd (openFile demo_net anyone "/a.txt" read_flag tt demo_fs).

(** A [stat] of ["/a.txt"] overtaken by an [openFile], on a server that
    sends no [Content-Length]: the [stat] is suspended at its HEAD
    request, the [openFile] runs to its end, then the [stat] resumes. *)
Definition stat_suspended : FetchFS * option pending_call :=
  start silent_net anyone (Call_stat "/a.txt" tt) demo_fs.

Definition overtaken_fs : FetchFS :=
  match snd stat_suspended with
  | Some k =>
      resume k (run silent_net anyone (Call_openFile "/a.txt" read_flag tt) (fst stat_suspended))
  | None => fst stat_suspended
  end.

(** * Properties *)

(** ** The heap and the monad *)

Lemma heap_set_same (h : Heap) (l : loc) (st : Stats) : heap_set h l st l = st.
Proof. unfold heap_set. now rewrite Nat.eqb_refl. Qed.

Lemma heap_set_other (h : Heap) (l l' : loc) (st : Stats) :
  l' <> l -> heap_set h l st l' = h l'.
Proof.
  intros Hne. unfold heap_set.
  destruct (Nat.eqb_spec l' l); [contradiction | reflexivity].
Qed.

Lemma bind_return {A B : Type} (c : M A) (k : A -> M B) (s s' : FetchFS) (a : A) :
  c s = (Return a, s') -> bind c k s = k a s'.
Proof. intros H. unfold bind. now rewrite H. Qed.

Lemma bind_throw {A B : Type} (c : M A) (k : A -> M B) (s s' : FetchFS) (e : error) :
  c s = (Throw e, s') -> bind c k s = (Throw e, s').
Proof. intros H. unfold bind. now rewrite H. Qed.

Lemma this_index_some (s : FetchFS) (idx : FileIndex) :
  _index s = Some idx -> this_index s = (Return idx, s).
Proof. intros H. unfold this_index. now rewrite H. Qed.

Lemma this_index_none (s : FetchFS) :
  _index s = None -> this_index s = (Throw TypeError, s).
Proof. intros H. unfold this_index. now rewrite H. Qed.

(** Unfolds a method down to the state it computes. *)
Ltac unfold_method :=
  unfold stat, openFile, readFile, preloadFile,
    empty, Zen.preloadFile, Zen.isFile, _fetchFile, _fetchSize, fetchFile,
    fetchSize, fetchFile_settled, _getRemotePath, fetch, convertError, close, toStats,
    deref, read, write, this_index, bind, ret, throw.

(** ** Strings *)

Lemma length_append_sep (b : string) :
  String.length (b ++ "/") = S (String.length b).
Proof. induction b as [| c b IH]; simpl; [reflexivity | now rewrite IH]. Qed.

Lemma get_append_sep (b : string) :
  String.get (String.length b) (b ++ "/") = Some "/"%char.
Proof. induction b as [| c b IH]; simpl; [reflexivity | exact IH]. Qed.

Lemma at_last_append_sep (b : string) : at_last (b ++ "/") = Some "/".
Proof.
  unfold at_last. rewrite length_append_sep.
  unfold charAt. now rewrite get_append_sep.
Qed.

Lemma at_last_charAt (b : string) :
  b <> "" -> at_last b = Some (charAt b (String.length b - 1)).
Proof.
  intros Hb. unfold at_last.
  destruct b as [| c b]; [contradiction |].
  simpl String.length. now rewrite Nat.sub_1_r.
Qed.

Lemma length_pos (b : string) : b <> "" -> (0 <? String.length b)%nat = true.
Proof. destruct b; [contradiction | reflexivity]. Qed.

Lemma normalize_baseUrl_cases (b : string) :
  (b = "" -> normalize_baseUrl b = "")
  /\ (b <> "" -> at_last b = Some "/" -> normalize_baseUrl b = b)
  /\ (b <> "" -> at_last b <> Some "/" -> normalize_baseUrl b = b ++ "/").
Proof.
  unfold normalize_baseUrl. repeat split.
  - intros ->. reflexivity.
  - intros Hb Hl. rewrite (length_pos b Hb). rewrite (at_last_charAt b Hb) in Hl.
    injection Hl as Hl. rewrite Hl. reflexivity.
  - intros Hb Hl. rewrite (length_pos b Hb). rewrite (at_last_charAt b Hb) in Hl.
    destruct (String.eqb_spec (charAt b (String.length b - 1)) "/") as [E | E].
    + rewrite E in Hl. contradiction.
    + reflexivity.
Qed.

Lemma prefixUrl_constructor (net : list request -> request -> fetch_outcome)
    (opts : FetchOptions) :
  prefixUrl (constructor net opts)
  = normalize_baseUrl (match opt_baseUrl opts with Some b => b | None => "" end).
Proof. reflexivity. Qed.

Lemma option_string_dec (a b : option string) : {a = b} + {a <> b}.
Proof. decide equality. apply string_dec. Qed.

(** C10: after construction [prefixUrl] ends with the separator whenever
    it is not empty; an omitted or empty [baseUrl] gives the empty
    [prefixUrl]; a non-empty [baseUrl] that does not end with ["/"] gets
    one appended. *)
Theorem prefixUrl_ends_with_separator
    (net : list request -> request -> fetch_outcome) (opts : FetchOptions) :
  let b := match opt_baseUrl opts with Some b => b | None => "" end in
  let p := prefixUrl (constructor net opts) in
  (p <> "" -> at_last p = Some "/")
  /\ (b = "" -> p = "")
  /\ (b <> "" -> at_last b <> Some "/" -> p = b ++ "/").
Proof.
  intros b p. subst p. rewrite prefixUrl_constructor. fold b.
  destruct (normalize_baseUrl_cases b) as (Hempty & Hkept & Happended).
  repeat split.
  - intros Hp. destruct (string_dec b "") as [E | E].
    + rewrite (Hempty E) in Hp. contradiction.
    + destruct (option_string_dec (at_last b) (Some "/")) as [L | L].
      * now rewrite (Hkept E L).
      * rewrite (Happended E L). apply at_last_append_sep.
  - exact Hempty.
  - exact Happended.
Qed.

Lemma prefixUrl_ends_with_separator_witness :
  (prefixUrl demo_fs <> "" -> at_last (prefixUrl demo_fs) = Some "/")
  /\ ("https://x" = "" -> prefixUrl demo_fs = "")
  /\ ("https://x" <> "" -> at_last "https://x" <> Some "/"
      -> prefixUrl demo_fs = "https://x" ++ "/").
Proof. exact (prefixUrl_ends_with_separator demo_net demo_options). Defined.

(** In the revision of [part_000] the separator is appended to the empty
    [baseUrl] as well. *)
Lemma Zen_prefixUrl_always_ends_with_separator
    (net : list request -> request -> fetch_outcome) (opts : FetchOptions) :
  at_last (prefixUrl (Zen.constructor net opts)) = Some "/"
  /\ (opt_baseUrl opts = None -> prefixUrl (Zen.constructor net opts) = "/").
Proof.
  assert (P : prefixUrl (Zen.constructor net opts)
              = Zen.normalize_baseUrl (match opt_baseUrl opts with Some b => b | None => "" end)).
  { unfold Zen.constructor, Zen.start_initialize, settle_with, set_index, fetch.
    destruct (opt_index opts) as [[u | t] |]; simpl; try reflexivity.
    destruct (FromListing t _ _) as [[[i h] n] |]; reflexivity. }
  rewrite P. split.
  - generalize (match opt_baseUrl opts with Some b => b | None => "" end). intros b.
    unfold Zen.normalize_baseUrl.
    destruct (at_last b) as [c |] eqn:E; [| apply at_last_append_sep].
    destruct (String.eqb_spec c "/") as [-> | Hc]; [exact E | apply at_last_append_sep].
  - intros ->. reflexivity.
Qed.

(** ** Methods on a populated index *)

Section Methods.

Variable net : list request -> request -> fetch_outcome.
Variable Cred : Type.
Variable hasAccess : Z -> Z -> Cred -> bool.

(** C9: with a flag that asks for write access [openFile] throws [EPERM]
    whatever the path and whatever the state of the index; nothing is
    resolved, nothing is requested, nothing changes. *)
Theorem openFile_writeable_EPERM (s : FetchFS) (path : string) (flag : FileFlag) (cred : Cred) :
  isWriteable flag = true ->
  openFile net hasAccess path flag cred s = (Throw (ApiError EPERM), s).
Proof. intros Hw. unfold openFile. rewrite Hw. reflexivity. Qed.

(** [preloadFile] on a path that resolves to nothing. *)
Lemma preloadFile_absent (s : FetchFS) (idx : FileIndex) (path : string) (buf : Uint8Array) :
  _index s = Some idx ->
  getInode idx path = None ->
  preloadFile path buf s = (Throw (ApiError EISDIR), s).
Proof.
  intros Hidx Hnone. unfold preloadFile.
  rewrite (bind_return _ _ _ _ _ (this_index_some s idx Hidx)).
  rewrite Hnone. reflexivity.
Qed.

Lemma preloadFile_directory (s : FetchFS) (idx : FileIndex) (path : string) (buf : Uint8Array)
    (l : loc) (cs : list (string * IndexInode)) :
  _index s = Some idx ->
  getInode idx path = Some (IndexDirInode l cs) ->
  preloadFile path buf s = (Throw (ApiError EISDIR), s).
Proof.
  intros Hidx Hdir. unfold preloadFile.
  rewrite (bind_return _ _ _ _ _ (this_index_some s idx Hidx)).
  rewrite Hdir. reflexivity.
Qed.

Lemma preloadFile_file (s : FetchFS) (idx : FileIndex) (path : string) (buf : Uint8Array)
    (l : loc) :
  _index s = Some idx ->
  getInode idx path = Some (IndexFileInode l) ->
  preloadFile path buf s = (Return tt, preloaded s l buf).
Proof.
  intros Hidx Hfile. unfold preloadFile.
  rewrite (bind_return _ _ _ _ _ (this_index_some s idx Hidx)).
  rewrite Hfile. unfold_method. simpl.
  unfold preloaded. rewrite heap_set_same. reflexivity.
Qed.

Lemma preloaded_fields (s : FetchFS) (l : loc) (buf : Uint8Array) :
  prefixUrl (preloaded s l buf) = prefixUrl s
  /\ _index (preloaded s l buf) = _index s
  /\ _ready (preloaded s l buf) = _ready s
  /\ requests (preloaded s l buf) = requests s
  /\ heap (preloaded s l buf) l = mkStats (length_of buf) (mode (heap s l)) (Some buf)
  /\ (forall l', l' <> l -> heap (preloaded s l buf) l' = heap s l').
Proof.
  unfold preloaded. simpl. repeat split.
  - apply heap_set_same.
  - intros l' Hne. now rewrite !heap_set_other.
Qed.

(** [preloadFile] never reports a missing path as [ENOENT]: the test for
    an absent inode comes after the test that already rejects it. *)
Lemma preloadFile_never_ENOENT (s : FetchFS) (path : string) (buf : Uint8Array) :
  fst (preloadFile path buf s) <> Throw (ApiError ENOENT).
Proof.
  unfold preloadFile, bind, this_index.
  destruct (_index s) as [idx |]; simpl; [| discriminate].
  destruct (getInode idx path) as [[l | l cs] |]; simpl; discriminate.
Qed.

(** Opening a file whose bytes are cached: no request, no change. *)
Lemma openFile_cached (s : FetchFS) (idx : FileIndex) (path : string) (flag : FileFlag)
    (cred : Cred) (l : loc) (b : Uint8Array) :
  isWriteable flag = false ->
  _index s = Some idx ->
  getInode idx path = Some (IndexFileInode l) ->
  hasAccess (mode (heap s l)) (flag_mode flag) cred = true ->
  fileData (heap s l) = Some b ->
  openFile net hasAccess path flag cred s
  = (Return (mkFile path flag (Cloned (Stats_clone (heap s l))) (Some b)), s).
Proof.
  intros Hw Hidx Hfile Hacc Hdata. unfold openFile. rewrite Hw.
  rewrite (bind_return _ _ _ _ _ (this_index_some s idx Hidx)).
  rewrite Hfile. unfold_method. simpl. rewrite Hacc. simpl. rewrite Hdata. reflexivity.
Qed.

(** C7: [preloadFile(path, bytes)] on a file followed by [openFile] in a
    read mode returns a handle on exactly those bytes; neither call
    issues a request. *)
Theorem preloadFile_then_openFile (s : FetchFS) (idx : FileIndex) (path : string)
    (buf : Uint8Array) (flag : FileFlag) (cred : Cred) (l : loc) :
  _index s = Some idx ->
  getInode idx path = Some (IndexFileInode l) ->
  isWriteable flag = false ->
  hasAccess (mode (heap s l)) (flag_mode flag) cred = true ->
  exists (s1 : FetchFS) (fd : NoSyncFile),
    preloadFile path buf s = (Return tt, s1)
    /\ openFile net hasAccess path flag cred s1 = (Return fd, s1)
    /\ contents fd = Some buf
    /\ buffer_of fd = buf
    /\ requests s1 = requests s.
Proof.
  intros Hidx Hfile Hw Hacc.
  destruct (preloaded_fields s l buf) as (_ & Hi & _ & Hr & Hl & _).
  exists (preloaded s l buf).
  eexists. split; [exact (preloadFile_file s idx path buf l Hidx Hfile) |].
  split.
  - apply (openFile_cached _ idx path flag cred l buf).
    + exact Hw.
    + now rewrite Hi.
    + exact Hfile.
    + now rewrite Hl.
    + now rewrite Hl.
  - simpl. auto.
Qed.

End Methods.

Lemma openFile_writeable_EPERM_witness :
  openFile demo_net anyone "/no/such/file" write_flag tt pending_fs
  = (Throw (ApiError EPERM), pending_fs).
Proof. apply openFile_writeable_EPERM. reflexivity. Defined.

(** C6: on the demo site, preloading a path that is not in the listing
    throws [EISDIR], not [ENOENT]. *)
Theorem preloadFile_missing_path_EISDIR :
  _index demo_fs = Some demo_index
  /\ getInode demo_index "/missing" = None
  /\ preloadFile "/missing" hi demo_fs = (Throw (ApiError EISDIR), demo_fs).
Proof. repeat split. Qed.

(** In the revision of [part_000] the same call ends in a [TypeError]. *)
Lemma Zen_preloadFile_missing_path_TypeError :
  Zen.preloadFile "/missing" hi demo_fs = (Throw TypeError, demo_fs).
Proof. reflexivity. Qed.

Lemma preloadFile_then_openFile_witness :
  exists (s1 : FetchFS) (fd : NoSyncFile),
    preloadFile "/a.txt" hi demo_fs = (Return tt, s1)
    /\ openFile demo_net anyone "/a.txt" read_flag tt s1 = (Return fd, s1)
    /\ contents fd = Some hi
    /\ buffer_of fd = hi
    /\ requests s1 = requests demo_fs.
Proof.
  apply (preloadFile_then_openFile demo_net unit anyone demo_fs demo_index
           "/a.txt" hi read_flag tt 1%nat); reflexivity.
Defined.

(** ** Lazy retrieval of bytes and sizes *)

Section Lazy.

Variable net : list request -> request -> fetch_outcome.
Variable Cred : Type.
Variable hasAccess : Z -> Z -> Cred -> bool.

Lemma getRemotePath_remote_url (s : FetchFS) (path : string) :
  _getRemotePath path s = (Return (remote_url s path), s).
Proof. reflexivity. Qed.

(** The leading separator is stripped, once. *)
Lemma remote_url_strips_separator (s : FetchFS) (rest : string) :
  remote_url s (String "/" rest) = prefixUrl s ++ rest.
Proof. reflexivity. Qed.

Lemma remote_url_relative (s : FetchFS) (path : string) :
  charAt path 0 <> "/" -> remote_url s path = prefixUrl s ++ path.
Proof.
  intros H. unfold remote_url.
  destruct (String.eqb_spec (charAt path 0) "/"); [contradiction | reflexivity].
Qed.

(** Opening a file whose bytes are not cached, the GET succeeding. *)
Lemma openFile_fetch (s : FetchFS) (idx : FileIndex) (path : string) (flag : FileFlag)
    (cred : Cred) (l : loc) (resp : Response) (b : Uint8Array) :
  isWriteable flag = false ->
  _index s = Some idx ->
  getInode idx path = Some (IndexFileInode l) ->
  hasAccess (mode (heap s l)) (flag_mode flag) cred = true ->
  fileData (heap s l) = None ->
  net (requests s) (mkRequest GET (remote_url s path)) = Resolved resp ->
  ok resp = true ->
  arrayBuffer resp = Some b ->
  openFile net hasAccess path flag cred s
  = (Return (mkFile path flag (Cloned (mkStats (length_of b) (mode (heap s l)) (Some b)))
               (Some b)),
     fetched s path l b).
Proof.
  intros Hw Hidx Hfile Hacc Hdata Hnet Hok Hbody. unfold openFile. rewrite Hw.
  rewrite (bind_return _ _ _ _ _ (this_index_some s idx Hidx)).
  rewrite Hfile. unfold_method. simpl. rewrite Hacc. simpl. rewrite Hdata.
  fold (remote_url s path). rewrite Hnet, Hok. simpl. rewrite Hbody. simpl.
  rewrite !heap_set_same. reflexivity.
Qed.

(** Opening a file whose bytes are not cached issues one GET, however
    the transport answers. *)
Lemma openFile_uncached_requests (s : FetchFS) (idx : FileIndex) (path : string)
    (flag : FileFlag) (cred : Cred) (l : loc) :
  isWriteable flag = false ->
  _index s = Some idx ->
  getInode idx path = Some (IndexFileInode l) ->
  hasAccess (mode (heap s l)) (flag_mode flag) cred = true ->
  fileData (heap s l) = None ->
  requests (snd (openFile net hasAccess path flag cred s))
  = mkRequest GET (remote_url s path) :: requests s.
Proof.
  intros Hw Hidx Hfile Hacc Hdata. unfold openFile. rewrite Hw.
  rewrite (bind_return _ _ _ _ _ (this_index_some s idx Hidx)).
  rewrite Hfile. unfold_method. simpl. rewrite Hacc. simpl. rewrite Hdata.
  fold (remote_url s path).
  destruct (net (requests s) (mkRequest GET (remote_url s path))) as [| resp]; simpl;
    [reflexivity |].
  destruct (ok resp); simpl; [| reflexivity].
  destruct (arrayBuffer resp); reflexivity.
Qed.

Lemma fetched_fields (s : FetchFS) (path : string) (l : loc) (b : Uint8Array) :
  prefixUrl (fetched s path l b) = prefixUrl s
  /\ _index (fetched s path l b) = _index s
  /\ requests (fetched s path l b) = mkRequest GET (remote_url s path) :: requests s
  /\ heap (fetched s path l b) l = mkStats (length_of b) (mode (heap s l)) (Some b)
  /\ (forall l', l' <> l -> heap (fetched s path l b) l' = heap s l').
Proof.
  unfold fetched, preloaded. simpl. repeat split.
  - apply heap_set_same.
  - intros l' Hne. now rewrite !heap_set_other.
Qed.

Lemma readFile_openFile (s s' : FetchFS) (path : string) (flag : FileFlag) (cred : Cred)
    (fd : NoSyncFile) :
  openFile net hasAccess path flag cred s = (Return fd, s') ->
  readFile net hasAccess path flag cred s = (Return (buffer_of fd), s').
Proof.
  intros H. unfold readFile. rewrite (bind_return _ _ _ _ _ H). reflexivity.
Qed.

(** [stat] on a file of unknown size, the HEAD succeeding. *)
Lemma stat_fetches_size (s : FetchFS) (idx : FileIndex) (path : string) (cred : Cred)
    (l : loc) (resp : Response) :
  _index s = Some idx ->
  getInode idx path = Some (IndexFileInode l) ->
  hasAccess (mode (heap s l)) R_OK cred = true ->
  lt0 (size (heap s l)) = true ->
  net (requests s) (mkRequest HEAD (remote_url s path)) = Resolved resp ->
  ok resp = true ->
  stat net hasAccess path cred s
  = (Return l, sized s path l (parseInt (or_default (contentLength resp) "-1"))).
Proof.
  intros Hidx Hfile Hacc Hneg Hnet Hok. unfold stat.
  rewrite (bind_return _ _ _ _ _ (this_index_some s idx Hidx)).
  rewrite Hfile. unfold_method. simpl. rewrite Hacc. simpl. rewrite Hneg.
  fold (remote_url s path). rewrite Hnet, Hok. reflexivity.
Qed.

(** [stat] on a file whose size is not negative: no request, no change. *)
Lemma stat_known_size (s : FetchFS) (idx : FileIndex) (path : string) (cred : Cred) (l : loc) :
  _index s = Some idx ->
  getInode idx path = Some (IndexFileInode l) ->
  hasAccess (mode (heap s l)) R_OK cred = true ->
  lt0 (size (heap s l)) = false ->
  stat net hasAccess path cred s = (Return l, s).
Proof.
  intros Hidx Hfile Hacc Hpos. unfold stat.
  rewrite (bind_return _ _ _ _ _ (this_index_some s idx Hidx)).
  rewrite Hfile. unfold_method. simpl. rewrite Hacc. simpl. rewrite Hpos. reflexivity.
Qed.

(** [stat] on a file of unknown size issues one HEAD, however the
    transport answers. *)
Lemma stat_unknown_size_requests (s : FetchFS) (idx : FileIndex) (path : string)
    (cred : Cred) (l : loc) :
  _index s = Some idx ->
  getInode idx path = Some (IndexFileInode l) ->
  hasAccess (mode (heap s l)) R_OK cred = true ->
  lt0 (size (heap s l)) = true ->
  requests (snd (stat net hasAccess path cred s))
  = mkRequest HEAD (remote_url s path) :: requests s.
Proof.
  intros Hidx Hfile Hacc Hneg. unfold stat.
  rewrite (bind_return _ _ _ _ _ (this_index_some s idx Hidx)).
  rewrite Hfile. unfold_method. simpl. rewrite Hacc. simpl. rewrite Hneg.
  fold (remote_url s path).
  destruct (net (requests s) (mkRequest HEAD (remote_url s path))) as [| resp]; simpl;
    [reflexivity |].
  destruct (ok resp); reflexivity.
Qed.

Lemma sized_fields (s : FetchFS) (path : string) (l : loc) (n : number) :
  prefixUrl (sized s path l n) = prefixUrl s
  /\ _index (sized s path l n) = _index s
  /\ requests (sized s path l n) = mkRequest HEAD (remote_url s path) :: requests s
  /\ heap (sized s path l n) l = mkStats n (mode (heap s l)) (fileData (heap s l))
  /\ (forall l', l' <> l -> heap (sized s path l n) l' = heap s l').
Proof.
  unfold sized. simpl. repeat split.
  - apply heap_set_same.
  - intros l' Hne. now rewrite heap_set_other.
Qed.

Lemma remote_url_same_prefix (s s' : FetchFS) (path : string) :
  prefixUrl s' = prefixUrl s -> remote_url s' path = remote_url s path.
Proof. intros H. unfold remote_url. now rewrite H. Qed.

End Lazy.

Section Sizes.

Variable net : list request -> request -> fetch_outcome.
Variable Cred : Type.
Variable hasAccess : Z -> Z -> Cred -> bool.

(** C5 (amended): [stat] on a file of unknown size issues a HEAD request
    to [prefixUrl] followed by the path without its leading separator
    and, when the response is successful, returns without an error and
    adopts [parseInt] of the [Content-Length] header as the size; with
    the header absent or empty the size is [-1]. *)
Theorem stat_adopts_Content_Length (s : FetchFS) (idx : FileIndex) (path : string)
    (cred : Cred) (l : loc) (resp : Response) :
  _index s = Some idx ->
  getInode idx path = Some (IndexFileInode l) ->
  hasAccess (mode (heap s l)) R_OK cred = true ->
  lt0 (size (heap s l)) = true ->
  net (requests s) (mkRequest HEAD (remote_url s path)) = Resolved resp ->
  ok resp = true ->
  exists s1 : FetchFS,
    stat net hasAccess path cred s = (Return l, s1)
    /\ requests s1
       = mkRequest HEAD
           (prefixUrl s ++ (if String.eqb (charAt path 0) "/" then slice1 path else path))
         :: requests s
    /\ size (heap s1 l) = parseInt (or_default (contentLength resp) "-1")
    /\ (forall v, contentLength resp = Some v -> v <> "" -> size (heap s1 l) = parseInt v)
    /\ (contentLength resp = None \/ contentLength resp = Some "" ->
        size (heap s1 l) = Num (-1)).
Proof.
  intros Hidx Hfile Hacc Hneg Hnet Hok.
  eexists. split; [exact (stat_fetches_size net Cred hasAccess s idx path cred l resp
                            Hidx Hfile Hacc Hneg Hnet Hok) |].
  destruct (sized_fields s path l (parseInt (or_default (contentLength resp) "-1")))
    as (_ & _ & Hr & Hl & _).
  rewrite Hr, Hl. simpl. repeat split.
  - intros v Hv Hne. rewrite Hv. destruct v; [contradiction | reflexivity].
  - intros [H | H]; rewrite H; reflexivity.
Qed.

(** C4 (amended): two calls of [stat] on a file of unknown size issue
    exactly one HEAD request when the response is successful and its
    [Content-Length] does not parse to a negative number: the second
    call finds the size and changes nothing.  When it parses to a
    negative number, as the default [-1] of an absent header does, the
    second call issues a second HEAD request. *)
Theorem stat_twice_HEAD_requests (s : FetchFS) (idx : FileIndex) (path : string)
    (cred : Cred) (l : loc) (resp : Response) :
  _index s = Some idx ->
  getInode idx path = Some (IndexFileInode l) ->
  hasAccess (mode (heap s l)) R_OK cred = true ->
  lt0 (size (heap s l)) = true ->
  net (requests s) (mkRequest HEAD (remote_url s path)) = Resolved resp ->
  ok resp = true ->
  exists s1 : FetchFS,
    stat net hasAccess path cred s = (Return l, s1)
    /\ requests s1 = mkRequest HEAD (remote_url s path) :: requests s
    /\ (lt0 (parseInt (or_default (contentLength resp) "-1")) = false ->
        stat net hasAccess path cred s1 = (Return l, s1)
        /\ count_head (requests s1) = S (count_head (requests s)))
    /\ (lt0 (parseInt (or_default (contentLength resp) "-1")) = true ->
        requests (snd (stat net hasAccess path cred s1))
        = mkRequest HEAD (remote_url s path) :: mkRequest HEAD (remote_url s path)
            :: requests s).
Proof.
  intros Hidx Hfile Hacc Hneg Hnet Hok.
  set (n := parseInt (or_default (contentLength resp) "-1")).
  destruct (sized_fields s path l n) as (Hp & Hi & Hr & Hl & _).
  exists (sized s path l n).
  split; [exact (stat_fetches_size net Cred hasAccess s idx path cred l resp
                   Hidx Hfile Hacc Hneg Hnet Hok) |].
  split; [exact Hr |].
  assert (Hidx1 : _index (sized s path l n) = Some idx) by now rewrite Hi.
  assert (Hacc1 : hasAccess (mode (heap (sized s path l n) l)) R_OK cred = true)
    by now rewrite Hl.
  split.
  - intros Hpos. split.
    + apply (stat_known_size net Cred hasAccess _ idx path cred l Hidx1 Hfile Hacc1).
      now rewrite Hl.
    + rewrite Hr. reflexivity.
  - intros Hstill.
    rewrite (stat_unknown_size_requests net Cred hasAccess _ idx path cred l
               Hidx1 Hfile Hacc1).
    + rewrite Hr. now rewrite (remote_url_same_prefix s _ path Hp).
    + now rewrite Hl.
Qed.

End Sizes.

Lemma stat_adopts_Content_Length_witness :
  exists s1 : FetchFS,
    stat demo_net anyone "/a.txt" tt demo_fs = (Return 1%nat, s1)
    /\ requests s1 = mkRequest HEAD ("https://x/" ++ "a.txt") :: requests demo_fs
    /\ size (heap s1 1%nat) = parseInt (or_default (Some "2") "-1")
    /\ (forall v, Some "2" = Some v -> v <> "" -> size (heap s1 1%nat) = parseInt v)
    /\ (Some "2" = None \/ Some "2" = Some "" -> size (heap s1 1%nat) = Num (-1)).
Proof.
  apply (stat_adopts_Content_Length demo_net unit anyone demo_fs demo_index "/a.txt" tt 1%nat
           (mkResponse true 200 (Some "2") (Some hi) (Some demo_listing)));
    reflexivity.
Defined.

(** C5 fails for a header that is not a number: the size becomes [NaN],
    not [-1]. *)
Lemma stat_unparsable_Content_Length_is_NaN :
  size (heap demo_fs 1%nat) = Num (-1)
  /\ garbled_net (requests demo_fs) (mkRequest HEAD "https://x/a.txt")
     = Resolved (mkResponse true 200 (Some "abc") (Some hi) (Some demo_listing))
  /\ fst (stat garbled_net anyone "/a.txt" tt demo_fs) = Return 1%nat
  /\ size (heap (snd (stat garbled_net anyone "/a.txt" tt demo_fs)) 1%nat) = NaN
  /\ NaN <> Num (-1).
Proof. repeat split. discriminate. Qed.

Lemma stat_twice_HEAD_requests_witness :
  exists s1 : FetchFS,
    stat demo_net anyone "/a.txt" tt demo_fs = (Return 1%nat, s1)
    /\ requests s1 = mkRequest HEAD (remote_url demo_fs "/a.txt") :: requests demo_fs
    /\ (lt0 (parseInt (or_default (Some "2") "-1")) = false ->
        stat demo_net anyone "/a.txt" tt s1 = (Return 1%nat, s1)
        /\ count_head (requests s1) = S (count_head (requests demo_fs)))
    /\ (lt0 (parseInt (or_default (Some "2") "-1")) = true ->
        requests (snd (stat demo_net anyone "/a.txt" tt s1))
        = mkRequest HEAD (remote_url demo_fs "/a.txt")
            :: mkRequest HEAD (remote_url demo_fs "/a.txt") :: requests demo_fs).
Proof.
  apply (stat_twice_HEAD_requests demo_net unit anyone demo_fs demo_index "/a.txt" tt 1%nat
           (mkResponse true 200 (Some "2") (Some hi) (Some demo_listing)));
    reflexivity.
Defined.

(** C4 fails when the server sends no [Content-Length]: the size stays
    [-1] and the second [stat] asks again. *)
Lemma stat_twice_without_Content_Length_two_HEADs :
  size (heap demo_fs 1%nat) = Num (-1)
  /\ requests demo_fs = []
  /\ requests (snd (stat silent_net anyone "/a.txt" tt
                      (snd (stat silent_net anyone "/a.txt" tt demo_fs))))
     = [mkRequest HEAD "https://x/a.txt"; mkRequest HEAD "https://x/a.txt"]
  /\ count_head (requests (snd (stat silent_net anyone "/a.txt" tt
                                  (snd (stat silent_net anyone "/a.txt" tt demo_fs)))))
     = 2%nat.
Proof. repeat split. Qed.

(** ** What a call can change *)

Lemma lt0_length_of (b : Uint8Array) : lt0 (length_of b) = false.
Proof. unfold lt0, length_of. apply Z.ltb_ge. lia. Qed.

Lemma lookup_child_In (name : string) (cs : list (string * IndexInode)) (c : IndexInode) :
  lookup_child name cs = Some c -> exists n, In (n, c) cs.
Proof.
  induction cs as [| [n c'] r IH]; simpl; [discriminate |].
  destruct (String.eqb n name).
  - intros [= ->]. exists n. now left.
  - intros H. destruct (IH H) as [n' Hin]. exists n'. now right.
Qed.

Lemma descend_file_in_files (segs : list string) (n : IndexInode) (l : loc) :
  descend segs n = Some (IndexFileInode l) -> In l (files n).
Proof.
  revert n. induction segs as [| seg rest IH]; intros n; simpl.
  - intros [= ->]. simpl. now left.
  - destruct n as [d | st cs]; [discriminate |].
    destruct (lookup_child seg cs) as [c |] eqn:Hc; [| discriminate].
    intros H. simpl. apply in_flat_map.
    destruct (lookup_child_In seg cs c Hc) as [name Hin].
    exists (name, c). split; [exact Hin | exact (IH c H)].
Qed.

Lemma descend_dir_in_dirs (segs : list string) (n : IndexInode) (l : loc)
    (cs : list (string * IndexInode)) :
  descend segs n = Some (IndexDirInode l cs) -> In l (dirs n).
Proof.
  revert n. induction segs as [| seg rest IH]; intros n; simpl.
  - intros [= ->]. simpl. now left.
  - destruct n as [d | st cs']; [discriminate |].
    destruct (lookup_child seg cs') as [c |] eqn:Hc; [| discriminate].
    intros H. simpl. right. apply in_flat_map.
    destruct (lookup_child_In seg cs' c Hc) as [name Hin].
    exists (name, c). split; [exact Hin | exact (IH c H)].
Qed.

(** Every file the index resolves is among the nodes [files] yields. *)
Lemma getInode_file_in_files (idx : FileIndex) (path : string) (l : loc) :
  getInode idx path = Some (IndexFileInode l) -> In l (files idx).
Proof. apply descend_file_in_files. Qed.

Lemma getInode_dir_in_dirs (idx : FileIndex) (path : string) (l : loc)
    (cs : list (string * IndexInode)) :
  getInode idx path = Some (IndexDirInode l cs) -> In l (dirs idx).
Proof. apply descend_dir_in_dirs. Qed.

(** The loop of [empty]: it returns, and rewrites exactly the records of
    the listed nodes. *)
Lemma for_of_clear (ls : list loc) (s : FetchFS) :
  exists h : Heap,
    for_of ls (fun file => write file (set_fileData None)) s = (Return tt, with_heap h s)
    /\ (forall l, In l ls -> h l = set_fileData None (heap s l))
    /\ (forall l, ~ In l ls -> h l = heap s l).
Proof.
  revert s. induction ls as [| x r IH]; intros s.
  - exists (heap s). simpl. unfold ret. repeat split; try tauto.
    destruct s; reflexivity.
  - destruct (IH (with_heap (heap_set (heap s) x (set_fileData None (heap s x))) s))
      as (h & Hrun & Hin & Hout).
    exists h. simpl in *. unfold bind, write at 1. rewrite Hrun. repeat split.
    + intros l [-> | Hl].
      * destruct (in_dec Nat.eq_dec l r) as [Hr | Hr].
        -- rewrite (Hin l Hr), heap_set_same. reflexivity.
        -- rewrite (Hout l Hr), heap_set_same. reflexivity.
      * rewrite (Hin l Hl). unfold heap_set.
        destruct (Nat.eqb_spec l x) as [-> | _]; reflexivity.
    + intros l Hl. rewrite (Hout l); [| tauto].
      apply heap_set_other. intros ->. tauto.
Qed.

Section Effects.

Variable net : list request -> request -> fetch_outcome.
Variable Cred : Type.
Variable hasAccess : Z -> Z -> Cred -> bool.

Lemma stat_lazy_effect (s : FetchFS) (path : string) (cred : Cred) :
  lazy_effect s (snd (stat net hasAccess path cred s)).
Proof.
  unfold stat, bind, this_index.
  destruct (_index s) as [idx |]; [| apply effect_none].
  destruct (getInode idx path) as [[l | l cs] |]; unfold_method; simpl;
    [| | apply effect_none].
  - destruct (hasAccess (mode (heap s l)) R_OK cred); simpl; [| apply effect_none].
    destruct (lt0 (size (heap s l))) eqn:Hneg; simpl; [| apply effect_none].
    fold (remote_url s path).
    destruct (net (requests s) (mkRequest HEAD (remote_url s path))) as [| resp]; simpl;
      [apply effect_request |].
    destruct (ok resp); simpl; [| apply effect_request].
    apply (effect_sized s path l _ Hneg).
  - destruct (hasAccess (mode (heap s l)) R_OK cred); apply effect_none.
Qed.

Lemma openFile_lazy_effect (s : FetchFS) (path : string) (flag : FileFlag) (cred : Cred) :
  lazy_effect s (snd (openFile net hasAccess path flag cred s)).
Proof.
  unfold openFile.
  destruct (isWriteable flag); [apply effect_none |].
  unfold bind, this_index.
  destruct (_index s) as [idx |]; [| apply effect_none].
  destruct (getInode idx path) as [[l | l cs] |]; unfold_method; simpl;
    [| | apply effect_none].
  - destruct (hasAccess (mode (heap s l)) (flag_mode flag) cred); simpl;
      [| apply effect_none].
    destruct (fileData (heap s l)) eqn:Hdata; simpl; [apply effect_none |].
    fold (remote_url s path).
    destruct (net (requests s) (mkRequest GET (remote_url s path))) as [| resp]; simpl;
      [apply effect_request |].
    destruct (ok resp); simpl; [| apply effect_request].
    destruct (arrayBuffer resp) as [b |]; simpl; [| apply effect_request].
    rewrite !heap_set_same.
    apply (effect_fetched s path l b Hdata).
  - destruct (hasAccess (mode (heap s l)) (flag_mode flag) cred); apply effect_none.
Qed.

Lemma readFile_state (s : FetchFS) (path : string) (flag : FileFlag) (cred : Cred) :
  snd (readFile net hasAccess path flag cred s)
  = snd (openFile net hasAccess path flag cred s).
Proof.
  unfold readFile, bind.
  destruct (openFile net hasAccess path flag cred s) as [[fd | e |] s']; reflexivity.
Qed.

Lemma ready_state (s : FetchFS) : snd (ready s) = s.
Proof. unfold ready, await_ready. destruct (_ready s); reflexivity. Qed.

Lemma preloadFile_effect (s : FetchFS) (path : string) (buf : Uint8Array) :
  effect s (snd (preloadFile path buf s)).
Proof.
  unfold preloadFile, bind, this_index.
  destruct (_index s) as [idx |]; [| apply effect_lazy, effect_none].
  destruct (getInode idx path) as [[l | l cs] |]; unfold_method; simpl;
    try apply effect_lazy, effect_none.
  rewrite heap_set_same. apply (effect_preloaded s l buf).
Qed.

Lemma empty_effect (s : FetchFS) : effect s (snd (empty s)).
Proof.
  unfold empty, bind, this_index.
  destruct (_index s) as [idx |] eqn:Hidx; [| apply effect_lazy, effect_none].
  destruct (for_of_clear (files idx) s) as (h & Hrun & Hin & Hout).
  rewrite Hrun. simpl. exact (effect_emptied s idx h Hidx Hin Hout).
Qed.

(** Calls other than [preloadFile] and [empty] only fill in what is
    missing. *)
Lemma run_lazy_effect (c : call Cred) (s : FetchFS) :
  keeps_cache c = true -> lazy_effect s (run net hasAccess c s).
Proof.
  destruct c; simpl; try discriminate; intros _.
  - rewrite ready_state. apply effect_none.
  - apply stat_lazy_effect.
  - apply openFile_lazy_effect.
  - rewrite readFile_state. apply openFile_lazy_effect.
Qed.

Lemma run_effect (c : call Cred) (s : FetchFS) :
  is_loadIndex c = false -> effect s (run net hasAccess c s).
Proof.
  destruct c; try discriminate; intros _;
    try (apply effect_lazy; apply run_lazy_effect; reflexivity).
  - apply preloadFile_effect.
  - apply empty_effect.
Qed.

Lemma same_object_refl (s : FetchFS) : same_object s s.
Proof. unfold same_object. auto. Qed.

Lemma same_object_trans (s s' s'' : FetchFS) :
  same_object s s' -> same_object s' s'' -> same_object s s''.
Proof.
  unfold same_object. intros (A & B & C & D & E) (A' & B' & C' & D' & E').
  repeat split; first [congruence | intros l; now rewrite E', E].
Qed.

Lemma mode_heap_set (h : Heap) (l l' : loc) (st : Stats) :
  mode st = mode (h l) -> mode (heap_set h l st l') = mode (h l').
Proof.
  intros H. unfold heap_set. destruct (Nat.eqb_spec l' l) as [-> | _]; auto.
Qed.

Lemma lazy_effect_same_object (s s' : FetchFS) : lazy_effect s s' -> same_object s s'.
Proof.
  intros [| r | path l n _ | path l b _]; unfold same_object, sized, fetched, preloaded;
    simpl; repeat split; intros l'; repeat (apply mode_heap_set || rewrite mode_heap_set);
    reflexivity.
Qed.

Lemma effect_same_object (s s' : FetchFS) : effect s s' -> same_object s s'.
Proof.
  intros [t H | l b | idx h Hidx Hin Hout].
  - now apply lazy_effect_same_object.
  - unfold same_object, preloaded. simpl. repeat split. intros l'.
    rewrite mode_heap_set; [apply mode_heap_set; reflexivity | now rewrite heap_set_same].
  - unfold same_object. simpl. repeat split. intros l.
    destruct (in_dec Nat.eq_dec l (files idx)) as [H | H].
    + now rewrite (Hin l H).
    + now rewrite (Hout l H).
Qed.

Lemma run_all_same_object (cs : list (call Cred)) (s : FetchFS) :
  without_loadIndex cs = true -> same_object s (run_all net hasAccess cs s).
Proof.
  revert s. induction cs as [| c r IH]; intros s Hcs; simpl.
  - apply same_object_refl.
  - simpl in Hcs. apply andb_prop in Hcs. destruct Hcs as [Hc Hr].
    apply negb_true_iff in Hc.
    apply (same_object_trans _ (run net hasAccess c s)).
    + apply effect_same_object, run_effect, Hc.
    + apply IH, Hr.
Qed.

(** Cached bytes survive every call that is not [preloadFile] or
    [empty]. *)
Lemma lazy_effect_holds_bytes (s s' : FetchFS) (l : loc) (b : Uint8Array) :
  lazy_effect s s' -> holds_bytes s l b -> holds_bytes s' l b.
Proof.
  intros [| r | path l' n Hneg | path l' b' Hnone] [Hdata Hsize]; unfold holds_bytes.
  - auto.
  - auto.
  - destruct (Nat.eq_dec l l') as [-> | Hne].
    + rewrite Hsize, lt0_length_of in Hneg. discriminate.
    + destruct (sized_fields s path l' n) as (_ & _ & _ & _ & Hother).
      rewrite (Hother l Hne). auto.
  - destruct (Nat.eq_dec l l') as [-> | Hne].
    + rewrite Hdata in Hnone. discriminate.
    + destruct (fetched_fields s path l' b') as (_ & _ & _ & _ & Hother).
      rewrite (Hother l Hne). auto.
Qed.

Lemma run_all_keeps_cache (cs : list (call Cred)) (s : FetchFS) (l : loc) (b : Uint8Array) :
  forallb keeps_cache cs = true ->
  holds_bytes s l b ->
  holds_bytes (run_all net hasAccess cs s) l b
  /\ same_object s (run_all net hasAccess cs s).
Proof.
  revert s. induction cs as [| c r IH]; intros s Hk Hb; simpl.
  - split; [exact Hb | apply same_object_refl].
  - simpl in Hk. apply andb_prop in Hk. destruct Hk as [Hc Hr].
    pose proof (run_lazy_effect c s Hc) as He.
    destruct (IH (run net hasAccess c s) Hr (lazy_effect_holds_bytes _ _ l b He Hb))
      as [H1 H2].
    split; [exact H1 |].
    exact (same_object_trans _ _ _ (lazy_effect_same_object _ _ He) H2).
Qed.

Lemma effect_cache_consistent (s s' : FetchFS) :
  effect s s' -> cache_consistent s -> cache_consistent s'.
Proof.
  intros He Hinv idx Hidx l0 Hl0.
  pose proof (effect_same_object s s' He) as (_ & Hi & _).
  rewrite Hi in Hidx. pose proof (Hinv idx Hidx l0 Hl0) as Hslot.
  destruct He as [t [| r | path l n Hneg | path l b Hnone] | l b | idx' h Hidx' Hin Hout].
  - exact Hslot.
  - exact Hslot.
  - unfold sized. simpl. unfold heap_set.
    destruct (Nat.eqb_spec l0 l) as [-> | _]; [| exact Hslot].
    intros b Hb. simpl in Hb. rewrite (Hslot b Hb), lt0_length_of in Hneg. discriminate.
  - destruct (Nat.eq_dec l0 l) as [-> | Hne].
    + destruct (fetched_fields s path l b) as (_ & _ & _ & Hl & _). rewrite Hl.
      intros b' [= <-]. reflexivity.
    + destruct (fetched_fields s path l b) as (_ & _ & _ & _ & Hother).
      now rewrite (Hother l0 Hne).
  - destruct (Nat.eq_dec l0 l) as [-> | Hne].
    + destruct (preloaded_fields s l b) as (_ & _ & _ & _ & Hl & _). rewrite Hl.
      intros b' [= <-]. reflexivity.
    + destruct (preloaded_fields s l b) as (_ & _ & _ & _ & _ & Hother).
      now rewrite (Hother l0 Hne).
  - simpl. rewrite Hidx in Hidx'. injection Hidx' as <-.
    rewrite (Hin l0 Hl0). intros b Hb. discriminate.
Qed.

End Effects.

(** ** Round trips *)

Section RoundTrips.

Variable net : list request -> request -> fetch_outcome.
Variable Cred : Type.
Variable hasAccess : Z -> Z -> Cred -> bool.

(** C2: when [openFile] fetches a file, the handle it returns holds
    exactly the bytes of the one GET response, and so does [readFile];
    after that, and after any further calls of [ready], [stat],
    [openFile] and [readFile] on any paths, [openFile] and [readFile] on
    the same path return the same bytes, issue no request and leave the
    state as it is. *)
Theorem openFile_fetches_once (s : FetchFS) (idx : FileIndex) (path : string)
    (flag : FileFlag) (cred : Cred) (l : loc) (resp : Response) (b : Uint8Array) :
  isWriteable flag = false ->
  _index s = Some idx ->
  getInode idx path = Some (IndexFileInode l) ->
  hasAccess (mode (heap s l)) (flag_mode flag) cred = true ->
  fileData (heap s l) = None ->
  net (requests s) (mkRequest GET (remote_url s path)) = Resolved resp ->
  ok resp = true ->
  arrayBuffer resp = Some b ->
  exists (fd : NoSyncFile) (s1 : FetchFS),
    openFile net hasAccess path flag cred s = (Return fd, s1)
    /\ contents fd = Some b
    /\ buffer_of fd = b
    /\ readFile net hasAccess path flag cred s = (Return b, s1)
    /\ requests s1 = mkRequest GET (remote_url s path) :: requests s
    /\ (forall (cs : list (call Cred)) (flag' : FileFlag) (cred' : Cred),
          forallb keeps_cache cs = true ->
          isWriteable flag' = false ->
          hasAccess (mode (heap s l)) (flag_mode flag') cred' = true ->
          exists fd' : NoSyncFile,
            openFile net hasAccess path flag' cred' (run_all net hasAccess cs s1)
            = (Return fd', run_all net hasAccess cs s1)
            /\ buffer_of fd' = b
            /\ readFile net hasAccess path flag' cred' (run_all net hasAccess cs s1)
               = (Return b, run_all net hasAccess cs s1)).
Proof.
  intros Hw Hidx Hfile Hacc Hdata Hnet Hok Hbody.
  pose proof (openFile_fetch net Cred hasAccess s idx path flag cred l resp b
                Hw Hidx Hfile Hacc Hdata Hnet Hok Hbody) as Hopen.
  destruct (fetched_fields s path l b) as (_ & Hi & Hr & Hl & _).
  eexists. exists (fetched s path l b).
  split; [exact Hopen |]. split; [reflexivity |]. split; [reflexivity |].
  split; [exact (readFile_openFile net Cred hasAccess _ _ _ _ _ _ Hopen) |].
  split; [exact Hr |].
  intros cs flag' cred' Hcs Hw' Hacc'.
  assert (Hb : holds_bytes (fetched s path l b) l b) by (unfold holds_bytes; now rewrite Hl).
  destruct (run_all_keeps_cache net Cred hasAccess cs _ l b Hcs Hb)
    as [[Hdata2 _] (_ & Hi2 & _ & _ & Hm2)].
  assert (Hopen2 := openFile_cached net Cred hasAccess
                      (run_all net hasAccess cs (fetched s path l b)) idx path flag' cred' l b Hw').
  rewrite Hi2, Hi, Hm2, Hl in Hopen2. simpl in Hopen2.
  specialize (Hopen2 Hidx Hfile Hacc' Hdata2).
  eexists. split; [exact Hopen2 |]. split; [reflexivity |].
  exact (readFile_openFile net Cred hasAccess _ _ _ _ _ _ Hopen2).
Qed.

(** C8: [empty] returns after clearing the cached bytes of every file
    node; sizes, modes, the records of the directory nodes, the index,
    the other fields and the request log are as before.  The next
    [openFile] in a read mode on any file issues exactly one request, a
    GET for that file. *)
Theorem empty_clears_cached_bytes_only (s : FetchFS) (idx : FileIndex) :
  _index s = Some idx ->
  index_wf idx ->
  exists s1 : FetchFS,
    empty s = (Return tt, s1)
    /\ prefixUrl s1 = prefixUrl s
    /\ _index s1 = Some idx
    /\ _ready s1 = _ready s
    /\ requests s1 = requests s
    /\ (forall l, In l (files idx) ->
          fileData (heap s1 l) = None
          /\ size (heap s1 l) = size (heap s l)
          /\ mode (heap s1 l) = mode (heap s l))
    /\ (forall l, In l (dirs idx) -> heap s1 l = heap s l)
    /\ (forall l, ~ In l (files idx) -> heap s1 l = heap s l)
    /\ (forall (path : string) (flag : FileFlag) (cred : Cred) (l : loc),
          getInode idx path = Some (IndexFileInode l) ->
          isWriteable flag = false ->
          hasAccess (mode (heap s l)) (flag_mode flag) cred = true ->
          requests (snd (openFile net hasAccess path flag cred s1))
          = mkRequest GET (remote_url s path) :: requests s).
Proof.
  intros Hidx Hwf.
  destruct (for_of_clear (files idx) s) as (h & Hrun & Hin & Hout).
  exists (with_heap h s).
  split.
  { unfold empty. rewrite (bind_return _ _ _ _ _ (this_index_some s idx Hidx)). exact Hrun. }
  simpl. repeat split; auto.
  - now rewrite (Hin l H).
  - now rewrite (Hin l H).
  - now rewrite (Hin l H).
  - intros l Hl. apply Hout. intros Hf. exact (Hwf l Hf Hl).
  - intros path flag cred l Hfile Hw Hacc.
    pose proof (getInode_file_in_files idx path l Hfile) as Hl.
    rewrite (openFile_uncached_requests net Cred hasAccess (with_heap h s) idx path flag
               cred l Hw Hidx Hfile).
    + reflexivity.
    + simpl. now rewrite (Hin l Hl).
    + simpl. now rewrite (Hin l Hl).
Qed.

End RoundTrips.

Lemma demo_fs_consistent : cache_consistent demo_fs.
Proof.
  intros idx Hidx l Hl b Hb. injection Hidx as <-. simpl in Hl.
  destruct Hl as [<- | [<- | []]]; discriminate.
Qed.

Lemma openFile_fetches_once_witness :
  exists (fd : NoSyncFile) (s1 : FetchFS),
    openFile demo_net anyone "/a.txt" read_flag tt demo_fs = (Return fd, s1)
    /\ contents fd = Some hi
    /\ buffer_of fd = hi
    /\ readFile demo_net anyone "/a.txt" read_flag tt demo_fs = (Return hi, s1)
    /\ requests s1 = mkRequest GET (remote_url demo_fs "/a.txt") :: requests demo_fs
    /\ (forall (cs : list (call unit)) (flag' : FileFlag) (cred' : unit),
          forallb keeps_cache cs = true ->
          isWriteable flag' = false ->
          anyone (mode (heap demo_fs 1%nat)) (flag_mode flag') cred' = true ->
          exists fd' : NoSyncFile,
            openFile demo_net anyone "/a.txt" flag' cred' (run_all demo_net anyone cs s1)
            = (Return fd', run_all demo_net anyone cs s1)
            /\ buffer_of fd' = hi
            /\ readFile demo_net anyone "/a.txt" flag' cred' (run_all demo_net anyone cs s1)
               = (Return hi, run_all demo_net anyone cs s1)).
Proof.
  apply (openFile_fetches_once demo_net unit anyone demo_fs demo_index "/a.txt" read_flag tt
           1%nat (mkResponse true 200 (Some "2") (Some hi) (Some demo_listing)) hi);
    reflexivity.
Defined.

Lemma empty_clears_cached_bytes_only_witness :
  fileData (heap opened_fs 1%nat) = Some hi
  /\ exists s1 : FetchFS,
       empty opened_fs = (Return tt, s1)
       /\ prefixUrl s1 = prefixUrl opened_fs
       /\ _index s1 = Some demo_index
       /\ _ready s1 = _ready opened_fs
       /\ requests s1 = requests opened_fs
       /\ (forall l, In l (files demo_index) ->
             fileData (heap s1 l) = None
             /\ size (heap s1 l) = size (heap opened_fs l)
             /\ mode (heap s1 l) = mode (heap opened_fs l))
       /\ (forall l, In l (dirs demo_index) -> heap s1 l = heap opened_fs l)
       /\ (forall l, ~ In l (files demo_index) -> heap s1 l = heap opened_fs l)
       /\ (forall (path : string) (flag : FileFlag) (cred : unit) (l : loc),
             getInode demo_index path = Some (IndexFileInode l) ->
             isWriteable flag = false ->
             anyone (mode (heap opened_fs l)) (flag_mode flag) cred = true ->
             requests (snd (openFile demo_net anyone path flag cred s1))
             = mkRequest GET (remote_url opened_fs path) :: requests opened_fs).
Proof.
  split; [reflexivity |].
  apply (empty_clears_cached_bytes_only demo_net unit anyone opened_fs demo_index).
  - reflexivity.
  - intros l Hf Hd. simpl in Hf, Hd.
    destruct Hf as [<- | [<- | []]]; destruct Hd as [Hd | [Hd | []]]; discriminate.
Defined.

(** ** Building the index *)

Lemma Listing_nested_ind (P : Listing -> Prop) :
  P LNull ->
  (forall es, Forall (fun p => P (snd p)) es -> P (LObject es)) ->
  forall l, P l.
Proof.
  intros HN HO. fix IH 1. intros [| es]; [exact HN |].
  apply HO. revert es. fix IHes 1. intros [| [n l] r].
  - constructor.
  - constructor; [exact (IH l) | exact (IHes r)].
Qed.

Lemma allocates_app (n n1 n2 : loc) (h h1 h2 : Heap) (fs ds fs' ds' : list loc) :
  allocates n n1 h h1 fs ds ->
  allocates n1 n2 h1 h2 fs' ds' ->
  allocates n n2 h h2 (fs ++ fs') (ds ++ ds').
Proof.
  intros (A1 & A2 & A3 & A4 & A5) (B1 & B2 & B3 & B4 & B5).
  unfold allocates. repeat split.
  - lia.
  - intros x Hx. rewrite B2 by lia. apply A2, Hx.
  - apply in_app_or in H. destruct H as [H | H].
    + apply A3 in H. lia.
    + apply B3 in H. lia.
  - apply in_app_or in H. destruct H as [H | H].
    + apply A3 in H. lia.
    + apply B3 in H. lia.
  - apply in_app_or in H. destruct H as [H | H].
    + destruct (A3 x H) as [Hr Hf]. rewrite B2 by lia. exact Hf.
    + apply B3, H.
  - apply in_app_or in H. destruct H as [H | H].
    + apply A4 in H. lia.
    + apply B4 in H. lia.
  - apply in_app_or in H. destruct H as [H | H].
    + apply A4 in H. lia.
    + apply B4 in H. lia.
  - intros x Hf Hd. apply in_app_or in Hf. apply in_app_or in Hd.
    destruct Hf as [Hf | Hf]; destruct Hd as [Hd | Hd].
    + exact (A5 x Hf Hd).
    + apply A3 in Hf. apply B4 in Hd. lia.
    + apply B3 in Hf. apply A4 in Hd. lia.
    + exact (B5 x Hf Hd).
Qed.

Lemma build_entries_allocates (es : list (string * Listing)) :
  Forall (fun p => forall h n i h' n',
            build (snd p) h n = Some (i, h', n') ->
            allocates n n' h h' (files i) (dirs i)) es ->
  forall h n cs h' n',
    build_entries build es h n = Some (cs, h', n') ->
    allocates n n' h h'
      (flat_map (fun p => files (snd p)) cs) (flat_map (fun p => dirs (snd p)) cs).
Proof.
  induction 1 as [| [name l] r Hl _ IH]; intros h n cs h' n'; simpl.
  - intros [= <- <- <-]. unfold allocates. simpl.
    repeat split; intros; first [lia | reflexivity | contradiction].
  - destruct (has_sep name); [discriminate |].
    destruct (build l h n) as [[[c h1] n1] |] eqn:Hc; [| discriminate].
    destruct (build_entries build r h1 n1) as [[[cs' h2] n2] |] eqn:Hr; [| discriminate].
    intros [= <- <- <-]. simpl.
    exact (allocates_app _ _ _ _ _ _ _ _ _ _ (Hl h n c h1 n1 Hc) (IH h1 n1 cs' h2 n2 Hr)).
Qed.

(** [FromListing] gives every node a record of its own, fresh for the
    files, and leaves the records that existed alone. *)
Lemma build_allocates (l : Listing) :
  forall h n i h' n',
    build l h n = Some (i, h', n') -> allocates n n' h h' (files i) (dirs i).
Proof.
  induction l as [| es IH] using Listing_nested_ind; intros h n i h' n'; simpl.
  - intros [= <- <- <-]. unfold allocates. simpl. repeat split; try (lia || tauto).
    + intros x Hx. apply heap_set_other. lia.
    + destruct H as [<- | []]. apply heap_set_same.
  - destruct (build_entries build es (heap_set h n fresh_dir_stats) (S n))
      as [[[cs h1] n1] |] eqn:Hes; [| discriminate].
    intros [= <- <- <-].
    destruct (build_entries_allocates es IH _ _ _ _ _ Hes) as (A1 & A2 & A3 & A4 & A5).
    unfold allocates. simpl. repeat split.
    + lia.
    + intros x Hx. rewrite A2 by lia. apply heap_set_other. lia.
    + apply A3 in H. lia.
    + apply A3 in H. lia.
    + apply A3, H.
    + destruct H as [<- | H]; [lia | apply A4 in H; lia].
    + destruct H as [<- | H]; [lia | apply A4 in H; lia].
    + intros x Hf [<- | Hd]; [apply A3 in Hf; lia | exact (A5 x Hf Hd)].
Qed.

Lemma set_index_result (t : ListingTree) (s : FetchFS) :
  set_index t s = (Throw (ApiError EINVAL), s)
  \/ exists idx h n,
       set_index t s = (Return tt, with_index idx h n s)
       /\ index_wf idx
       /\ (forall l, In l (files idx) -> h l = fresh_file_stats).
Proof.
  unfold set_index, FromListing.
  destruct (build (LObject t) (heap s) (next_loc s)) as [[[idx h] n] |] eqn:Hb;
    [right | now left].
  destruct (build_allocates _ _ _ _ _ _ Hb) as (_ & _ & A3 & _ & A5).
  exists idx, h, n. repeat split.
  - exact A5.
  - intros l Hl. apply A3, Hl.
Qed.

Lemma fs_invariant_indexed (s : FetchFS) (idx : FileIndex) (h : Heap) (n : loc) (p : Promise) :
  index_wf idx ->
  (forall l, In l (files idx) -> h l = fresh_file_stats) ->
  fs_invariant (with_ready p (with_index idx h n s)).
Proof.
  intros Hwf Hfresh. unfold fs_invariant, ready_matches_index, cache_consistent. simpl.
  repeat split.
  - intros _. now exists idx.
  - intros idx' [= <-] l Hl b Hb. rewrite (Hfresh l Hl) in Hb. discriminate.
  - intros idx' [= <-]. exact Hwf.
Qed.

Lemma fs_invariant_not_ready (s : FetchFS) (p : Promise) :
  p <> Fulfilled ->
  cache_consistent s ->
  (forall idx, _index s = Some idx -> index_wf idx) ->
  fs_invariant (with_ready p s).
Proof.
  intros Hp Hc Hw. unfold fs_invariant, ready_matches_index. simpl.
  repeat split; [intros E; contradiction | exact Hc | exact Hw].
Qed.

Lemma fs_invariant_request (s : FetchFS) (r : request) :
  fs_invariant s -> fs_invariant (with_request r s).
Proof. intros Hs. exact Hs. Qed.

Lemma indexing_invariant (s s' : FetchFS) :
  indexing_effect s s' -> fs_invariant s -> fs_invariant s'.
Proof.
  intros [| idx h n Hwf Hfresh] Hs; [exact Hs |].
  unfold fs_invariant, ready_matches_index, cache_consistent. simpl. repeat split.
  - intros _. now exists idx.
  - intros idx' [= <-] l Hl b Hb. rewrite (Hfresh l Hl) in Hb. discriminate.
  - intros idx' [= <-]. exact Hwf.
Qed.

Lemma set_index_indexing (t : ListingTree) (s : FetchFS) :
  indexing_effect s (snd (set_index t s)).
Proof.
  destruct (set_index_result t s) as [-> | (idx & h & n & -> & Hwf & Hfresh)].
  - apply indexing_failed.
  - now apply indexing_done.
Qed.

Lemma loadIndex_settled_indexing (o : fetch_outcome) (s : FetchFS) :
  indexing_effect s (snd (loadIndex_settled o s)).
Proof.
  unfold loadIndex_settled, fetchFile_settled, convertError, bind, throw, ret.
  destruct o as [| resp]; [apply indexing_failed |].
  destruct (ok resp); simpl; [| apply indexing_failed].
  destruct (json resp) as [j |]; [| apply indexing_failed].
  apply set_index_indexing.
Qed.

Lemma settle_with_set_index (t : ListingTree) (s : FetchFS) :
  cache_consistent s ->
  (forall idx, _index s = Some idx -> index_wf idx) ->
  fs_invariant (settle_with (set_index t) s).
Proof.
  intros Hc Hw. unfold settle_with.
  destruct (set_index_result t s) as [-> | (idx & h & n & -> & Hwf & Hfresh)].
  - apply fs_invariant_not_ready; [discriminate | exact Hc | exact Hw].
  - now apply fs_invariant_indexed.
Qed.

Section Reachable.

Variable net : list request -> request -> fetch_outcome.
Variable Cred : Type.
Variable hasAccess : Z -> Z -> Cred -> bool.

(** [loadIndex] logs at most one request and then assigns the index, if
    the listing arrives and can be indexed. *)
Lemma loadIndex_effect (index : string + ListingTree) (s : FetchFS) :
  exists s0 : FetchFS,
    (s0 = s \/ exists r, s0 = with_request r s)
    /\ indexing_effect s0 (snd (loadIndex net index s)).
Proof.
  destruct index as [url | tree].
  - exists (with_request (mkRequest GET url) s). split; [right; eauto |].
    unfold loadIndex, fetchFile, fetch, bind. simpl.
    exact (loadIndex_settled_indexing (net (requests s) (mkRequest GET url))
             (with_request (mkRequest GET url) s)).
  - exists s. split; [now left |].
    unfold loadIndex, bind, ret. apply set_index_indexing.
Qed.

Lemma constructor_invariant (opts : FetchOptions) : fs_invariant (constructor net opts).
Proof.
  assert (H : forall u s, fs_invariant s -> fs_invariant (with_prefixUrl u s)).
  { intros u s Hs. exact Hs. }
  assert (Hc : cache_consistent blank) by (intros idx Hidx; discriminate).
  assert (Hw : forall idx, _index blank = Some idx -> index_wf idx)
    by (intros idx Hidx; discriminate).
  unfold constructor. apply H. unfold start_loadIndex.
  destruct (index_or_default (opt_index opts)) as [url | tree].
  - simpl. apply (fs_invariant_not_ready (with_request _ blank)); [discriminate | | ]; assumption.
  - now apply settle_with_set_index.
Qed.

Lemma settle_invariant (s : FetchFS) : fs_invariant s -> fs_invariant (settle s).
Proof.
  intros Hs. unfold settle.
  destruct (_ready s) as [o | |] eqn:Hr; try exact Hs.
  destruct Hs as (_ & Hc & Hw).
  unfold loadIndex_settled, fetchFile_settled, convertError, bind, throw, ret.
  destruct o as [| resp];
    [apply fs_invariant_not_ready; [discriminate | exact Hc | exact Hw] |].
  destruct (ok resp); simpl;
    [| apply fs_invariant_not_ready; [discriminate | exact Hc | exact Hw]].
  destruct (json resp) as [j |];
    [| apply fs_invariant_not_ready; [discriminate | exact Hc | exact Hw]].
  fold (settle_with (set_index j) s). now apply settle_with_set_index.
Qed.

Lemma effect_invariant (s s' : FetchFS) : effect s s' -> fs_invariant s -> fs_invariant s'.
Proof.
  intros He (Hm & Hc & Hw).
  pose proof (effect_same_object s s' He) as (_ & Hi & Hr & _).
  unfold fs_invariant, ready_matches_index. rewrite Hi, Hr. repeat split.
  - exact Hm.
  - exact (effect_cache_consistent s s' He Hc).
  - exact Hw.
Qed.

Lemma run_invariant (c : call Cred) (s : FetchFS) :
  fs_invariant s -> fs_invariant (run net hasAccess c s).
Proof.
  intros Hs. destruct (is_loadIndex c) eqn:Hc.
  - destruct c; try discriminate. simpl.
    destruct (loadIndex_effect index s) as (s0 & [-> | [r ->]] & He).
    + exact (indexing_invariant _ _ He Hs).
    + exact (indexing_invariant _ _ He (fs_invariant_request s r Hs)).
  - exact (effect_invariant _ _ (run_effect net Cred hasAccess c s Hc) Hs).
Qed.

(** Issuing the index request and completing it later leaves the object
    as [loadIndex] run in one go does. *)
Lemma loadIndex_in_two_steps (index : string + ListingTree) (s : FetchFS) :
  settle (start_loadIndex net index s) = settle_with (loadIndex net index) s.
Proof.
  destruct index as [url | tree].
  - unfold start_loadIndex, settle, loadIndex, loadIndex_settled, settle_with, fetchFile,
      fetchFile_settled, convertError, fetch, bind, throw, ret. simpl.
    destruct (net (requests s) (mkRequest GET url)) as [| resp]; simpl; [reflexivity |].
    destruct (ok resp); simpl; [| reflexivity].
    destruct (json resp) as [j |]; simpl; [| reflexivity].
    unfold set_index. simpl.
    destruct (FromListing j (heap s) (next_loc s)) as [[[i h] n] |]; reflexivity.
  - unfold start_loadIndex, settle, loadIndex, settle_with, bind, ret, set_index.
    destruct (FromListing tree (heap s) (next_loc s)) as [[[i h] n] |]; reflexivity.
Qed.

(** Every state a file system object goes through, its methods called
    one after another, satisfies the invariants. *)
Lemma reachable_invariant (s : FetchFS) : reachable net hasAccess s -> fs_invariant s.
Proof.
  induction 1 as [opts | s _ IH | c s _ IH].
  - apply constructor_invariant.
  - now apply settle_invariant.
  - now apply run_invariant.
Qed.

(** C1 (amended): [ready] is the only method that awaits the readiness
    promise: while the promise is pending [ready] suspends its caller,
    and once [ready] returns the index is populated.  The other methods
    do not wait.  Whenever the index is unset, [stat], [preloadFile],
    [empty], and [openFile] and [readFile] with a read-only flag read the
    index field at once and end in a [TypeError]: they are not
    suspended, resolve no path, issue no request and change nothing;
    with a writeable flag [openFile] and [readFile] throw [EPERM] before
    that.  The index is unset from the construction with a URL index
    until the index request completes, unless [loadIndex] is called in
    between. *)
Theorem only_ready_awaits :
  (forall s o, _ready s = Pending o -> ready s = (Suspended, s))
  /\ (forall s, _index s = None ->
        (forall path cred, stat net hasAccess path cred s = (Throw TypeError, s))
        /\ (forall path flag cred,
              isWriteable flag = false ->
              openFile net hasAccess path flag cred s = (Throw TypeError, s)
              /\ readFile net hasAccess path flag cred s = (Throw TypeError, s))
        /\ (forall path buf, preloadFile path buf s = (Throw TypeError, s))
        /\ empty s = (Throw TypeError, s))
  /\ (forall s path flag cred,
        isWriteable flag = true ->
        openFile net hasAccess path flag cred s = (Throw (ApiError EPERM), s)
        /\ readFile net hasAccess path flag cred s = (Throw (ApiError EPERM), s))
  /\ (forall opts url (cs : list (call Cred)),
        index_or_default (opt_index opts) = inl url ->
        without_loadIndex cs = true ->
        (exists o, _ready (run_all net hasAccess cs (constructor net opts)) = Pending o)
        /\ _index (run_all net hasAccess cs (constructor net opts)) = None)
  /\ (forall s, reachable net hasAccess s ->
        ready s = (Return tt, s) -> exists idx, _index s = Some idx).
Proof.
  split; [| split; [| split; [| split]]].
  - intros s o Hp. unfold ready, await_ready. now rewrite Hp.
  - intros s Hnone. pose proof (this_index_none s Hnone) as Hthis. repeat split.
    + intros path cred. unfold stat. exact (bind_throw _ _ _ _ _ Hthis).
    + unfold openFile. rewrite H. exact (bind_throw _ _ _ _ _ Hthis).
    + unfold readFile, openFile. rewrite H.
      apply bind_throw. exact (bind_throw _ _ _ _ _ Hthis).
    + intros path buf. unfold preloadFile. exact (bind_throw _ _ _ _ _ Hthis).
    + unfold empty. exact (bind_throw _ _ _ _ _ Hthis).
  - intros s path flag cred Hw. split.
    + unfold openFile. now rewrite Hw.
    + unfold readFile, openFile, bind. now rewrite Hw.
  - intros opts url cs Hurl Hcs.
    destruct (run_all_same_object net Cred hasAccess cs (constructor net opts) Hcs)
      as (_ & Hi & Hr & _).
    rewrite Hi, Hr. unfold constructor, start_loadIndex. rewrite Hurl. simpl.
    split; [eexists; reflexivity | reflexivity].
  - intros s Hreach. destruct (reachable_invariant s Hreach) as (Hm & _).
    unfold ready_matches_index in Hm.
    unfold ready, await_ready. destruct (_ready s); try discriminate.
    intros _. now apply Hm.
Qed.

End Reachable.

Lemma only_ready_awaits_witness :
  ready pending_fs = (Suspended, pending_fs)
  /\ stat demo_net anyone "/a.txt" tt pending_fs = (Throw TypeError, pending_fs)
  /\ openFile demo_net anyone "/a.txt" read_flag tt pending_fs = (Throw TypeError, pending_fs)
  /\ openFile demo_net anyone "/a.txt" write_flag tt pending_fs
     = (Throw (ApiError EPERM), pending_fs)
  /\ _index (run_all demo_net anyone [Call_stat "/a.txt" tt; Call_empty] pending_fs) = None
  /\ ready (settle pending_fs) = (Return tt, settle pending_fs)
  /\ exists idx, _index (settle pending_fs) = Some idx.
Proof.
  destruct (only_ready_awaits demo_net unit anyone) as (H1 & H2 & H3 & H4 & H5).
  split; [exact (H1 pending_fs _ eq_refl) |].
  destruct (H2 pending_fs eq_refl) as (Hstat & Hopen & _).
  split; [exact (Hstat "/a.txt" tt) |].
  split; [exact (proj1 (Hopen "/a.txt" read_flag tt eq_refl)) |].
  split; [exact (proj1 (H3 pending_fs "/a.txt" write_flag tt eq_refl)) |].
  split; [exact (proj2 (H4 (mkOptions None None) "index.json"
                          [Call_stat "/a.txt" tt; Call_empty] eq_refl eq_refl)) |].
  split; [reflexivity |].
  apply (H5 (settle pending_fs)); [| reflexivity].
  exact (reach_settle demo_net unit anyone pending_fs
           (reach_new demo_net unit anyone (mkOptions None None))).
Defined.

(** C1 fails: called while the index request is pending, [stat] does not
    wait; it reads the unpopulated index field and throws, where [ready]
    is suspended.  Once the request has completed the same call
    succeeds. *)
Lemma stat_before_ready_does_not_wait :
  (exists o, _ready pending_fs = Pending o)
  /\ _index pending_fs = None
  /\ ready pending_fs = (Suspended, pending_fs)
  /\ stat demo_net anyone "/a.txt" tt pending_fs = (Throw TypeError, pending_fs)
  /\ fst (stat demo_net anyone "/a.txt" tt pending_fs) <> Suspended
  /\ fst (stat demo_net anyone "/a.txt" tt (settle pending_fs)) = Return 1%nat.
Proof.
  split; [eexists; reflexivity |].
  repeat split. discriminate.
Qed.

(** ** The scenario of the specification

    On the demo site [openFile("/a.txt")] issues GET [https://x/a.txt];
    the server answering ["hi"], [readFile] returns ["hi"] and [stat]
    then reports the size 2 without a request of its own. *)
Example end_to_end :
  requests (snd (openFile demo_net anyone "/a.txt" read_flag tt demo_fs))
  = [mkRequest GET "https://x/a.txt"]
  /\ fst (readFile demo_net anyone "/a.txt" read_flag tt demo_fs) = Return hi
  /\ (let s1 := snd (readFile demo_net anyone "/a.txt" read_flag tt demo_fs) in
      fst (stat demo_net anyone "/a.txt" tt s1) = Return 1%nat
      /\ size (heap (snd (stat demo_net anyone "/a.txt" tt s1)) 1%nat) = Num 2
      /\ requests (snd (stat demo_net anyone "/a.txt" tt s1)) = requests s1).
Proof. repeat split. Qed.

(** ** The two download helpers *)

Section Downloads.

Variable net : list request -> request -> fetch_outcome.

(** [fetchFile] issues exactly one GET for the URL it is given and
    touches nothing else; it returns the body exactly when the response
    is successful and its body can be read, and otherwise throws [EIO],
    whatever went wrong. *)
Theorem fetchFile_one_GET_or_EIO (p : string) (type : download_type) (s : FetchFS) :
  snd (fetchFile net p type s) = with_request (mkRequest GET p) s
  /\ (thrown (fetchFile net p type s) = None
      \/ thrown (fetchFile net p type s) = Some (ApiError EIO))
  /\ fst (fetchFile net p type s) <> Suspended
  /\ (forall b : Uint8Array,
        fst (fetchFile net p buffer s) = Return b
        <-> exists r, net (requests s) (mkRequest GET p) = Resolved r
                      /\ ok r = true /\ arrayBuffer r = Some b).
Proof.
  unfold thrown, fetchFile, fetchFile_settled, fetch, convertError, bind, throw, ret. simpl.
  destruct (net (requests s) (mkRequest GET p)) as [| r]; simpl.
  - repeat split; auto; try discriminate.
    intros (r & Hr & _). discriminate.
  - destruct (ok r) eqn:Hok; simpl.
    + repeat split.
      * destruct type; [destruct (arrayBuffer r) | destruct (json r)]; reflexivity.
      * destruct type; [destruct (arrayBuffer r) | destruct (json r)]; simpl; auto.
      * destruct type; [destruct (arrayBuffer r) | destruct (json r)]; discriminate.
      * destruct (arrayBuffer r) as [b' |] eqn:Hb; simpl; [| discriminate].
        intros [= <-]. exists r. auto.
      * intros (r' & [= <-] & _ & Hb). rewrite Hb. reflexivity.
    + repeat split; auto; try discriminate.
      intros (r' & [= <-] & Hok' & _). congruence.
Qed.

(** [fetchSize] issues exactly one HEAD for the URL it is given and
    touches nothing else; it returns [parseInt] of the [Content-Length]
    header (of ["-1"] when there is none) exactly when the response is
    successful, and otherwise throws [EIO]. *)
Theorem fetchSize_one_HEAD_or_EIO (p : string) (s : FetchFS) :
  snd (fetchSize net p s) = with_request (mkRequest HEAD p) s
  /\ (thrown (fetchSize net p s) = None \/ thrown (fetchSize net p s) = Some (ApiError EIO))
  /\ fst (fetchSize net p s) <> Suspended
  /\ (forall n : number,
        fst (fetchSize net p s) = Return n
        <-> exists r, net (requests s) (mkRequest HEAD p) = Resolved r
                      /\ ok r = true
                      /\ n = parseInt (or_default (contentLength r) "-1")).
Proof.
  unfold thrown, fetchSize, fetch, convertError, bind, throw, ret. simpl.
  destruct (net (requests s) (mkRequest HEAD p)) as [| r]; simpl.
  - repeat split; auto; try discriminate.
    intros (r & Hr & _). discriminate.
  - destruct (ok r) eqn:Hok; simpl.
    + repeat split; auto; try discriminate.
      * intros [= <-]. exists r. auto.
      * intros (r' & [= <-] & _ & ->). reflexivity.
    + repeat split; auto; try discriminate.
      intros (r' & [= <-] & Hok' & _). congruence.
Qed.

End Downloads.

(** ** Every outcome of [stat] and [openFile] *)

Section Outcomes.

Variable net : list request -> request -> fetch_outcome.
Variable Cred : Type.
Variable hasAccess : Z -> Z -> Cred -> bool.

(** [stat] on a populated index, case by case. *)
Lemma stat_cases (s : FetchFS) (idx : FileIndex) (path : string) (cred : Cred) :
  _index s = Some idx ->
  stat net hasAccess path cred s
  = match getInode idx path with
    | None => (Throw (ApiError ENOENT), s)
    | Some inode =>
        if hasAccess (mode (heap s (record_of inode))) R_OK cred then
          match inode with
          | IndexDirInode l _ => (Return l, s)
          | IndexFileInode l =>
              if lt0 (size (heap s l)) then
                match net (requests s) (mkRequest HEAD (remote_url s path)) with
                | NetworkError =>
                    (Throw (ApiError EIO), with_request (mkRequest HEAD (remote_url s path)) s)
                | Resolved r =>
                    if ok r
                    then (Return l,
                          sized s path l (parseInt (or_default (contentLength r) "-1")))
                    else (Throw (ApiError EIO),
                          with_request (mkRequest HEAD (remote_url s path)) s)
                end
              else (Return l, s)
          end
        else (Throw (ApiError EACCES), s)
    end.
Proof.
  intros Hidx. unfold stat.
  rewrite (bind_return _ _ _ _ _ (this_index_some s idx Hidx)).
  destruct (getInode idx path) as [[l | l cs] |]; unfold_method; simpl; [| | reflexivity].
  - destruct (hasAccess (mode (heap s l)) R_OK cred); simpl; [| reflexivity].
    destruct (lt0 (size (heap s l))); simpl; [| reflexivity].
    fold (remote_url s path).
    destruct (net (requests s) (mkRequest HEAD (remote_url s path))) as [| r]; simpl;
      [reflexivity |].
    destruct (ok r); reflexivity.
  - destruct (hasAccess (mode (heap s l)) R_OK cred); reflexivity.
Qed.

(** [openFile] on a populated index, case by case. *)
Lemma openFile_cases (s : FetchFS) (idx : FileIndex) (path : string) (flag : FileFlag)
    (cred : Cred) :
  _index s = Some idx ->
  openFile net hasAccess path flag cred s
  = if isWriteable flag then (Throw (ApiError EPERM), s)
    else
      match getInode idx path with
      | None => (Throw (ApiError ENOENT), s)
      | Some inode =>
          if hasAccess (mode (heap s (record_of inode))) (flag_mode flag) cred then
            match inode with
            | IndexDirInode l _ =>
                (Return (mkFile path flag (Shared l) (fileData (heap s l))), s)
            | IndexFileInode l =>
                match fileData (heap s l) with
                | Some cached =>
                    (Return (mkFile path flag (Cloned (Stats_clone (heap s l))) (Some cached)),
                     s)
                | None =>
                    match body_of (net (requests s) (mkRequest GET (remote_url s path))) with
                    | Some b =>
                        (Return (mkFile path flag
                                   (Cloned (mkStats (length_of b) (mode (heap s l)) (Some b)))
                                   (Some b)),
                         fetched s path l b)
                    | None =>
                        (Throw (ApiError EIO),
                         with_request (mkRequest GET (remote_url s path)) s)
                    end
                end
            end
          else (Throw (ApiError EACCES), s)
      end.
Proof.
  intros Hidx. unfold openFile.
  destruct (isWriteable flag); [reflexivity |].
  rewrite (bind_return _ _ _ _ _ (this_index_some s idx Hidx)).
  destruct (getInode idx path) as [[l | l cs] |]; unfold_method; simpl; [| | reflexivity].
  - destruct (hasAccess (mode (heap s l)) (flag_mode flag) cred); simpl; [| reflexivity].
    destruct (fileData (heap s l)); simpl; [reflexivity |].
    fold (remote_url s path). unfold body_of.
    destruct (net (requests s) (mkRequest GET (remote_url s path))) as [| r]; simpl;
      [reflexivity |].
    destruct (ok r); simpl; [| reflexivity].
    destruct (arrayBuffer r); simpl; [| reflexivity].
    rewrite !heap_set_same. reflexivity.
  - destruct (hasAccess (mode (heap s l)) (flag_mode flag) cred); reflexivity.
Qed.

(** On a populated index [stat] throws [ENOENT] exactly when the path
    resolves to no node, [EACCES] exactly when the node refuses read
    access, and [EIO] exactly when the node is a readable file of unknown
    size whose HEAD request fails; it throws nothing else.  The first two
    leave the state as it was. *)
Theorem stat_throws_exactly (s : FetchFS) (idx : FileIndex) (path : string) (cred : Cred) :
  _index s = Some idx ->
  (thrown (stat net hasAccess path cred s) = Some (ApiError ENOENT)
   <-> getInode idx path = None)
  /\ (thrown (stat net hasAccess path cred s) = Some (ApiError EACCES)
      <-> exists inode, getInode idx path = Some inode
                        /\ hasAccess (mode (heap s (record_of inode))) R_OK cred = false)
  /\ (thrown (stat net hasAccess path cred s) = Some (ApiError EIO)
      <-> exists l, getInode idx path = Some (IndexFileInode l)
                    /\ hasAccess (mode (heap s l)) R_OK cred = true
                    /\ lt0 (size (heap s l)) = true
                    /\ failed (net (requests s) (mkRequest HEAD (remote_url s path))) = true)
  /\ (forall e, thrown (stat net hasAccess path cred s) = Some e ->
        e = ApiError ENOENT \/ e = ApiError EACCES \/ e = ApiError EIO)
  /\ (thrown (stat net hasAccess path cred s) = Some (ApiError ENOENT)
      \/ thrown (stat net hasAccess path cred s) = Some (ApiError EACCES) ->
      snd (stat net hasAccess path cred s) = s).
Proof.
  intros Hidx. rewrite (stat_cases s idx path cred Hidx). unfold thrown, failed.
  destruct (getInode idx path) as [[l | l cs] |]; simpl.
  - destruct (hasAccess (mode (heap s l)) R_OK cred) eqn:Hacc; simpl.
    + destruct (lt0 (size (heap s l))) eqn:Hneg; simpl.
      * destruct (net (requests s) (mkRequest HEAD (remote_url s path))) as [| r] eqn:Hnet;
          simpl; [| destruct (ok r) eqn:Hok; simpl].
        -- repeat split; try discriminate; auto.
           ++ intros (i & [= <-] & H). simpl in H. congruence.
           ++ intros _. exists l. auto.
           ++ intros e [= <-]. auto.
           ++ intros [H | H]; discriminate.
        -- repeat split; try discriminate; auto.
           ++ intros (i & [= <-] & H). simpl in H. congruence.
           ++ intros (l' & _ & _ & _ & H). discriminate.
           ++ intros [H | H]; discriminate.
        -- repeat split; try discriminate; auto.
           ++ intros (i & [= <-] & H). simpl in H. congruence.
           ++ intros _. exists l. auto.
           ++ intros e [= <-]. auto.
           ++ intros [H | H]; discriminate.
      * repeat split; try discriminate; auto.
        -- intros (i & [= <-] & H). simpl in H. congruence.
        -- intros (l' & [= <-] & _ & H & _). congruence.
    + repeat split; try discriminate; auto.
      * intros _. exists (IndexFileInode l). auto.
      * intros (l' & [= <-] & H & _). congruence.
      * intros e [= <-]. auto.
  - destruct (hasAccess (mode (heap s l)) R_OK cred) eqn:Hacc; simpl.
    + repeat split; try discriminate; auto.
      * intros (i & [= <-] & H). simpl in H. congruence.
      * intros (l' & H & _). discriminate.
    + repeat split; try discriminate; auto.
      * intros _. exists (IndexDirInode l cs). auto.
      * intros (l' & H & _). discriminate.
      * intros e [= <-]. auto.
  - repeat split; try discriminate; auto.
    + intros (i & H & _). discriminate.
    + intros (l' & H & _). discriminate.
    + intros e [= <-]. auto.
Qed.

End Outcomes.

(** ** When requests are issued *)

Section Requests.

Variable net : list request -> request -> fetch_outcome.
Variable Cred : Type.
Variable hasAccess : Z -> Z -> Cred -> bool.

(** [stat] issues a request exactly when the path resolves to a readable
    file whose size is negative; the request is then one HEAD for the
    file's URL.  Directories, files of known size and rejected calls
    issue none. *)
Theorem stat_requests_exactly_when (s : FetchFS) (idx : FileIndex) (path : string)
    (cred : Cred) :
  _index s = Some idx ->
  (requests (snd (stat net hasAccess path cred s)) = requests s
   \/ requests (snd (stat net hasAccess path cred s))
      = mkRequest HEAD (remote_url s path) :: requests s)
  /\ (requests (snd (stat net hasAccess path cred s))
      = mkRequest HEAD (remote_url s path) :: requests s
      <-> exists l, getInode idx path = Some (IndexFileInode l)
                    /\ hasAccess (mode (heap s l)) R_OK cred = true
                    /\ lt0 (size (heap s l)) = true).
Proof.
  intros Hidx. rewrite (stat_cases net Cred hasAccess s idx path cred Hidx).
  assert (Hfresh : forall r, requests s <> r :: requests s).
  { intros r H. apply (f_equal (@List.length request)) in H. simpl in H. lia. }
  destruct (getInode idx path) as [[l | l cs] |]; simpl.
  - destruct (hasAccess (mode (heap s l)) R_OK cred) eqn:Hacc; simpl.
    + destruct (lt0 (size (heap s l))) eqn:Hneg; simpl.
      * assert (Hreq : requests
                         (snd match net (requests s) (mkRequest HEAD (remote_url s path)) with
                              | NetworkError =>
                                  (@Throw loc (ApiError EIO),
                                   with_request (mkRequest HEAD (remote_url s path)) s)
                              | Resolved r =>
                                  if ok r
                                  then (Return l,
                                        sized s path l
                                          (parseInt (or_default (contentLength r) "-1")))
                                  else (Throw (ApiError EIO),
                                        with_request (mkRequest HEAD (remote_url s path)) s)
                              end)
                       = mkRequest HEAD (remote_url s path) :: requests s).
        { destruct (net (requests s) (mkRequest HEAD (remote_url s path))) as [| r];
            [reflexivity | destruct (ok r); reflexivity]. }
        rewrite Hreq. split; [now right |]. split; [| reflexivity].
        intros _. exists l. auto.
      * split; [now left |]. split.
        -- intros H. now apply Hfresh in H.
        -- intros (l' & [= <-] & _ & H). congruence.
    + split; [now left |]. split.
      * intros H. now apply Hfresh in H.
      * intros (l' & [= <-] & H & _). congruence.
  - destruct (hasAccess (mode (heap s l)) R_OK cred); simpl;
      (split; [now left |]; split;
       [intros H; now apply Hfresh in H | intros (l' & H & _); discriminate]).
  - split; [now left |]. split.
    + intros H. now apply Hfresh in H.
    + intros (l' & H & _). discriminate.
Qed.

(** A failed HEAD leaves no trace but the logged request: [stat] throws
    [EIO], every stats record is as before, and the next [stat] on the
    path asks again. *)
Theorem stat_HEAD_failure_not_cached (s : FetchFS) (idx : FileIndex) (path : string)
    (cred : Cred) (l : loc) :
  _index s = Some idx ->
  getInode idx path = Some (IndexFileInode l) ->
  hasAccess (mode (heap s l)) R_OK cred = true ->
  lt0 (size (heap s l)) = true ->
  failed (net (requests s) (mkRequest HEAD (remote_url s path))) = true ->
  stat net hasAccess path cred s
  = (Throw (ApiError EIO), with_request (mkRequest HEAD (remote_url s path)) s)
  /\ heap (snd (stat net hasAccess path cred s)) = heap s
  /\ requests (snd (stat net hasAccess path cred (snd (stat net hasAccess path cred s))))
     = mkRequest HEAD (remote_url s path) :: mkRequest HEAD (remote_url s path) :: requests s.
Proof.
  intros Hidx Hfile Hacc Hneg Hfail.
  assert (H1 : stat net hasAccess path cred s
               = (Throw (ApiError EIO), with_request (mkRequest HEAD (remote_url s path)) s)).
  { rewrite (stat_cases net Cred hasAccess s idx path cred Hidx), Hfile. simpl.
    rewrite Hacc, Hneg. unfold failed in Hfail.
    destruct (net (requests s) (mkRequest HEAD (remote_url s path))) as [| r];
      [reflexivity |].
    destruct (ok r); [discriminate | reflexivity]. }
  rewrite H1. simpl. repeat split.
  exact (stat_unknown_size_requests net Cred hasAccess
           (with_request (mkRequest HEAD (remote_url s path)) s) idx path cred l
           Hidx Hfile Hacc Hneg).
Qed.

(** [stat] never fetches content: whatever the state and the outcome, the
    cached bytes of every node are as before and a request it adds to
    the log is a HEAD. *)
Theorem stat_never_fetches_content (s : FetchFS) (path : string) (cred : Cred) :
  (forall l, fileData (heap (snd (stat net hasAccess path cred s)) l) = fileData (heap s l))
  /\ (forall r, In r (requests (snd (stat net hasAccess path cred s))) ->
        In r (requests s) \/ req_method r = HEAD).
Proof.
  destruct (_index s) as [idx |] eqn:Hidx.
  - rewrite (stat_cases net Cred hasAccess s idx path cred Hidx).
    destruct (getInode idx path) as [[l | l cs] |]; simpl; auto.
    + destruct (hasAccess (mode (heap s l)) R_OK cred); simpl; auto.
      destruct (lt0 (size (heap s l))); simpl; auto.
      destruct (net (requests s) (mkRequest HEAD (remote_url s path))) as [| r]; simpl.
      * split; [reflexivity |]. intros r [<- | H]; auto.
      * destruct (ok r); simpl.
        -- split.
           ++ intros l'. unfold heap_set. destruct (Nat.eqb_spec l' l) as [-> | _]; reflexivity.
           ++ intros r' [<- | H]; auto.
        -- split; [reflexivity |]. intros r' [<- | H]; auto.
    + destruct (hasAccess (mode (heap s l)) R_OK cred); simpl; auto.
  - unfold stat. rewrite (bind_throw _ _ _ _ _ (this_index_none s Hidx)). simpl. auto.
Qed.

(** [openFile] issues a request exactly when the flag is read-only and
    the path resolves to an accessible file without cached bytes; the
    request is then one GET for the file's URL.  Directories, cached
    files and rejected calls issue none. *)
Theorem openFile_requests_exactly_when (s : FetchFS) (idx : FileIndex) (path : string)
    (flag : FileFlag) (cred : Cred) :
  _index s = Some idx ->
  (requests (snd (openFile net hasAccess path flag cred s)) = requests s
   \/ requests (snd (openFile net hasAccess path flag cred s))
      = mkRequest GET (remote_url s path) :: requests s)
  /\ (requests (snd (openFile net hasAccess path flag cred s))
      = mkRequest GET (remote_url s path) :: requests s
      <-> isWriteable flag = false
          /\ exists l, getInode idx path = Some (IndexFileInode l)
                       /\ hasAccess (mode (heap s l)) (flag_mode flag) cred = true
                       /\ fileData (heap s l) = None).
Proof.
  intros Hidx. rewrite (openFile_cases net Cred hasAccess s idx path flag cred Hidx).
  assert (Hfresh : forall r, requests s = r :: requests s -> False).
  { intros r H. apply (f_equal (@List.length request)) in H. simpl in H. lia. }
  destruct (isWriteable flag) eqn:Hw; simpl.
  { split; [now left |]. split; [intros H; now apply Hfresh in H | intros [H _]; discriminate]. }
  destruct (getInode idx path) as [[l | l cs] |]; simpl.
  - destruct (hasAccess (mode (heap s l)) (flag_mode flag) cred) eqn:Hacc; simpl.
    + destruct (fileData (heap s l)) as [cached |] eqn:Hdata; simpl.
      * split; [now left |]. split; [intros H; now apply Hfresh in H |].
        intros (_ & l' & [= <-] & _ & H). congruence.
      * destruct (body_of (net (requests s) (mkRequest GET (remote_url s path)))) as [b |];
          simpl; (split; [now right |]; split; [| reflexivity]; intros _; split; [reflexivity |];
                  exists l; auto).
    + split; [now left |]. split; [intros H; now apply Hfresh in H |].
      intros (_ & l' & [= <-] & H & _). congruence.
  - destruct (hasAccess (mode (heap s l)) (flag_mode flag) cred); simpl;
      (split; [now left |]; split;
       [intros H; now apply Hfresh in H | intros (_ & l' & H & _); discriminate]).
  - split; [now left |]. split; [intros H; now apply Hfresh in H |].
    intros (_ & l' & H & _). discriminate.
Qed.

(** A failed GET caches nothing: [openFile] throws [EIO], every stats
    record is as before, and the next [openFile] on the path fetches
    again. *)
Theorem openFile_GET_failure_not_cached (s : FetchFS) (idx : FileIndex) (path : string)
    (flag : FileFlag) (cred : Cred) (l : loc) :
  _index s = Some idx ->
  isWriteable flag = false ->
  getInode idx path = Some (IndexFileInode l) ->
  hasAccess (mode (heap s l)) (flag_mode flag) cred = true ->
  fileData (heap s l) = None ->
  body_of (net (requests s) (mkRequest GET (remote_url s path))) = None ->
  openFile net hasAccess path flag cred s
  = (Throw (ApiError EIO), with_request (mkRequest GET (remote_url s path)) s)
  /\ heap (snd (openFile net hasAccess path flag cred s)) = heap s
  /\ requests (snd (openFile net hasAccess path flag cred
                      (snd (openFile net hasAccess path flag cred s))))
     = mkRequest GET (remote_url s path) :: mkRequest GET (remote_url s path) :: requests s.
Proof.
  intros Hidx Hw Hfile Hacc Hdata Hfail.
  assert (H1 : openFile net hasAccess path flag cred s
               = (Throw (ApiError EIO), with_request (mkRequest GET (remote_url s path)) s)).
  { rewrite (openFile_cases net Cred hasAccess s idx path flag cred Hidx), Hw, Hfile. simpl.
    now rewrite Hacc, Hdata, Hfail. }
  rewrite H1. simpl. repeat split.
  exact (openFile_uncached_requests net Cred hasAccess
           (with_request (mkRequest GET (remote_url s path)) s) idx path flag cred l
           Hw Hidx Hfile Hacc Hdata).
Qed.

(** On a populated index [openFile] throws [EPERM] exactly for a flag
    that asks for write access; otherwise [ENOENT] exactly when the path
    resolves to no node, [EACCES] exactly when the node refuses the
    flag's mode, and [EIO] exactly when the node is an accessible file
    without cached bytes whose GET delivers no body.  On a path that
    is not a directory, and whose cached bytes if any have the recorded
    size, it throws nothing else.  (What the library's constructor of
    the handle makes of a directory is left open.) *)
Theorem openFile_throws_exactly (s : FetchFS) (idx : FileIndex) (path : string)
    (flag : FileFlag) (cred : Cred) :
  _index s = Some idx ->
  (thrown (openFile net hasAccess path flag cred s) = Some (ApiError EPERM)
   <-> isWriteable flag = true)
  /\ (thrown (openFile net hasAccess path flag cred s) = Some (ApiError ENOENT)
      <-> isWriteable flag = false /\ getInode idx path = None)
  /\ (thrown (openFile net hasAccess path flag cred s) = Some (ApiError EACCES)
      <-> isWriteable flag = false
          /\ exists inode, getInode idx path = Some inode
               /\ hasAccess (mode (heap s (record_of inode))) (flag_mode flag) cred = false)
  /\ (thrown (openFile net hasAccess path flag cred s) = Some (ApiError EIO)
      <-> isWriteable flag = false
          /\ exists l, getInode idx path = Some (IndexFileInode l)
               /\ hasAccess (mode (heap s l)) (flag_mode flag) cred = true
               /\ fileData (heap s l) = None
               /\ body_of (net (requests s) (mkRequest GET (remote_url s path))) = None)
  /\ (forall e, thrown (openFile net hasAccess path flag cred s) = Some e ->
        isIndexDirInode (getInode idx path) = false ->
        (forall l, getInode idx path = Some (IndexFileInode l) -> slot_consistent (heap s l)) ->
        e = ApiError EPERM \/ e = ApiError ENOENT \/ e = ApiError EACCES \/ e = ApiError EIO).
Proof.
  intros Hidx. rewrite (openFile_cases net Cred hasAccess s idx path flag cred Hidx).
  unfold thrown.
  destruct (isWriteable flag) eqn:Hw; simpl.
  { split; [split; auto |]. split; [split; [discriminate | intros [H _]; discriminate] |].
    split; [split; [discriminate | intros [H _]; discriminate] |].
    split; [split; [discriminate | intros [H _]; discriminate] |].
    intros e [= <-]. auto. }
  destruct (getInode idx path) as [[l | l cs] |]; simpl.
  - destruct (hasAccess (mode (heap s l)) (flag_mode flag) cred) eqn:Hacc; simpl.
    + destruct (fileData (heap s l)) as [cached |] eqn:Hdata; simpl.
      * split; [split; discriminate |].
        split; [split; [discriminate | intros [_ H]; discriminate] |].
        split; [split; [discriminate |] |].
        { intros (_ & i & [= <-] & H). simpl in H. congruence. }
        split; [split; [discriminate |] | discriminate].
        intros (_ & l' & [= <-] & _ & H & _). congruence.
      * destruct (body_of (net (requests s) (mkRequest GET (remote_url s path))))
          as [b |] eqn:Hbody; simpl.
        -- split; [split; discriminate |].
           split; [split; [discriminate | intros [_ H]; discriminate] |].
           split; [split; [discriminate |] |].
           { intros (_ & i & [= <-] & H). simpl in H. congruence. }
           split; [split; [discriminate |] | discriminate].
           intros (_ & l' & _ & _ & _ & H). discriminate.
        -- split; [split; discriminate |].
           split; [split; [discriminate | intros [_ H]; discriminate] |].
           split; [split; [discriminate |] |].
           { intros (_ & i & [= <-] & H). simpl in H. congruence. }
           split; [split; [| reflexivity] |].
           { intros _. split; [reflexivity |]. exists l. auto. }
           intros e [= <-]. auto.
    + split; [split; discriminate |].
      split; [split; [discriminate | intros [_ H]; discriminate] |].
      split; [split; [| reflexivity] |].
      { intros _. split; [reflexivity |]. exists (IndexFileInode l). auto. }
      split; [split; [discriminate |] |].
      { intros (_ & l' & [= <-] & H & _). congruence. }
      intros e [= <-]. auto.
  - destruct (hasAccess (mode (heap s l)) (flag_mode flag) cred) eqn:Hacc; simpl.
    + split; [split; discriminate |].
      split; [split; [discriminate | intros [_ H]; discriminate] |].
      split; [split; [discriminate |] |].
      { intros (_ & i & [= <-] & H). simpl in H. congruence. }
      split; [split; [discriminate |] | discriminate].
      intros (_ & l' & H & _). discriminate.
    + split; [split; discriminate |].
      split; [split; [discriminate | intros [_ H]; discriminate] |].
      split; [split; [| reflexivity] |].
      { intros _. split; [reflexivity |]. exists (IndexDirInode l cs). auto. }
      split; [split; [discriminate |] |].
      { intros (_ & l' & H & _). discriminate. }
      intros e [= <-]. auto.
  - split; [split; discriminate |].
    split; [split; [| reflexivity]; intros _; auto |].
    split; [split; [discriminate |] |].
    { intros (_ & i & H & _). discriminate. }
    split; [split; [discriminate |] |].
    { intros (_ & l' & H & _). discriminate. }
    intros e [= <-]. auto.
Qed.

End Requests.

(** ** Sequences of calls *)

Section Sequences.

Variable net : list request -> request -> fetch_outcome.
Variable Cred : Type.
Variable hasAccess : Z -> Z -> Cred -> bool.

Lemma effect_requests (s s' : FetchFS) :
  effect s s' -> requests s' = requests s \/ exists r, requests s' = r :: requests s.
Proof.
  intros [t [| r | path l n _ | path l b _] | l b | idx h _ _ _]; simpl; eauto.
Qed.

Lemma indexing_keeps_fields (s s' : FetchFS) :
  indexing_effect s s' ->
  requests s' = requests s /\ prefixUrl s' = prefixUrl s /\ _ready s' = _ready s.
Proof. intros [| idx h n _ _]; simpl; auto. Qed.

Lemma run_requests (c : call Cred) (s : FetchFS) :
  requests (run net hasAccess c s) = requests s
  \/ exists r, requests (run net hasAccess c s) = r :: requests s.
Proof.
  destruct (is_loadIndex c) eqn:Hc.
  - destruct c; try discriminate. simpl.
    destruct (loadIndex_effect net index s) as (s0 & Hs0 & He).
    destruct (indexing_keeps_fields _ _ He) as (-> & _).
    destruct Hs0 as [-> | [r ->]]; simpl; eauto.
  - exact (effect_requests _ _ (run_effect net Cred hasAccess c s Hc)).
Qed.

Lemma run_keeps_fields (c : call Cred) (s : FetchFS) :
  prefixUrl (run net hasAccess c s) = prefixUrl s
  /\ _ready (run net hasAccess c s) = _ready s.
Proof.
  destruct (is_loadIndex c) eqn:Hc.
  - destruct c; try discriminate. simpl.
    destruct (loadIndex_effect net index s) as (s0 & Hs0 & He).
    destruct (indexing_keeps_fields _ _ He) as (_ & -> & ->).
    destruct Hs0 as [-> | [r ->]]; simpl; auto.
  - destruct (effect_same_object _ _ (run_effect net Cred hasAccess c s Hc)) as (A & _ & B & _).
    auto.
Qed.

(** The request log only grows, and by at most one request per call:
    after any calls the log is the old one with at most as many new
    requests in front as there were calls. *)
Theorem run_all_requests_bounded (cs : list (call Cred)) (s : FetchFS) :
  exists new : list request,
    requests (run_all net hasAccess cs s) = (new ++ requests s)%list
    /\ (List.length new <= List.length cs)%nat.
Proof.
  revert s. induction cs as [| c r IH]; intros s; simpl.
  - exists []. split; [reflexivity | simpl; lia].
  - destruct (IH (run net hasAccess c s)) as (new & Hnew & Hlen).
    fold (run_all net hasAccess r (run net hasAccess c s)). rewrite Hnew.
    destruct (run_requests c s) as [-> | [q ->]].
    + exists new. split; [reflexivity | lia].
    + exists (new ++ [q])%list. split.
      * now rewrite <- app_assoc.
      * rewrite length_app. simpl. lia.
Qed.

(** No sequence of calls changes the URL prefix or the readiness
    promise, and [loadIndex] is the only method that replaces the index:
    a sequence of calls without [loadIndex] leaves the index tree and the
    mode bits of every stats record as they were. *)
Theorem calls_never_change_the_object (cs : list (call Cred)) (s : FetchFS) :
  prefixUrl (run_all net hasAccess cs s) = prefixUrl s
  /\ _ready (run_all net hasAccess cs s) = _ready s
  /\ (without_loadIndex cs = true -> same_object s (run_all net hasAccess cs s)).
Proof.
  split; [| split].
  - revert s. induction cs as [| c r IH]; intros s; simpl; [reflexivity |].
    fold (run_all net hasAccess r (run net hasAccess c s)).
    rewrite IH. apply run_keeps_fields.
  - revert s. induction cs as [| c r IH]; intros s; simpl; [reflexivity |].
    fold (run_all net hasAccess r (run net hasAccess c s)).
    rewrite IH. apply run_keeps_fields.
  - apply run_all_same_object.
Qed.

(** In every state a file system object goes through when its methods
    are called one after another, none overlapping another, [stat] on a
    file with cached bytes issues no request, changes nothing and
    reports the length of those bytes as the size, however the bytes
    came to be cached.  (When calls overlap, a file with cached bytes
    and an unknown size can arise; there [stat] asks for the size
    again.) *)
Theorem stat_of_cached_file (s : FetchFS) (idx : FileIndex) (path : string) (cred : Cred)
    (l : loc) (b : Uint8Array) :
  reachable net hasAccess s ->
  _index s = Some idx ->
  getInode idx path = Some (IndexFileInode l) ->
  hasAccess (mode (heap s l)) R_OK cred = true ->
  fileData (heap s l) = Some b ->
  stat net hasAccess path cred s = (Return l, s)
  /\ size (heap s l) = length_of b.
Proof.
  intros Hreach Hidx Hfile Hacc Hdata.
  destruct (reachable_invariant net Cred hasAccess s Hreach) as (_ & Hc & _).
  pose proof (Hc idx Hidx l (getInode_file_in_files idx path l Hfile) b Hdata) as Hsize.
  split; [| exact Hsize].
  apply (stat_known_size net Cred hasAccess s idx path cred l Hidx Hfile Hacc).
  rewrite Hsize. apply lt0_length_of.
Qed.

(** [empty] forgets the bytes but not the size: on a file whose size is
    known, a [stat] after [empty] still reports that size and issues no
    request, although the bytes are gone. *)
Theorem stat_after_empty_reports_old_size (s : FetchFS) (idx : FileIndex) (path : string)
    (cred : Cred) (l : loc) :
  _index s = Some idx ->
  getInode idx path = Some (IndexFileInode l) ->
  hasAccess (mode (heap s l)) R_OK cred = true ->
  lt0 (size (heap s l)) = false ->
  fst (empty s) = Return tt
  /\ fileData (heap (snd (empty s)) l) = None
  /\ size (heap (snd (empty s)) l) = size (heap s l)
  /\ stat net hasAccess path cred (snd (empty s)) = (Return l, snd (empty s)).
Proof.
  intros Hidx Hfile Hacc Hpos.
  destruct (for_of_clear (files idx) s) as (h & Hrun & Hin & _).
  assert (He : empty s = (Return tt, with_heap h s)).
  { unfold empty. now rewrite (bind_return _ _ _ _ _ (this_index_some s idx Hidx)). }
  rewrite He. simpl.
  pose proof (Hin l (getInode_file_in_files idx path l Hfile)) as Hl.
  repeat split.
  - now rewrite Hl.
  - now rewrite Hl.
  - apply (stat_known_size net Cred hasAccess (with_heap h s) idx path cred l Hidx Hfile);
      simpl; now rewrite Hl.
Qed.

(** [empty] is idempotent: a second [empty] has the same outcome and
    changes no stats record, no field and no log entry. *)
Theorem empty_twice (s : FetchFS) :
  fst (empty (snd (empty s))) = fst (empty s)
  /\ (forall l, heap (snd (empty (snd (empty s)))) l = heap (snd (empty s)) l)
  /\ requests (snd (empty (snd (empty s)))) = requests (snd (empty s))
  /\ _index (snd (empty (snd (empty s)))) = _index (snd (empty s))
  /\ _ready (snd (empty (snd (empty s)))) = _ready (snd (empty s))
  /\ prefixUrl (snd (empty (snd (empty s)))) = prefixUrl (snd (empty s)).
Proof.
  destruct (_index s) as [idx |] eqn:Hidx.
  - destruct (for_of_clear (files idx) s) as (h & Hrun & Hin & Hout).
    assert (He : empty s = (Return tt, with_heap h s)).
    { unfold empty. now rewrite (bind_return _ _ _ _ _ (this_index_some s idx Hidx)). }
    destruct (for_of_clear (files idx) (with_heap h s)) as (h2 & Hrun2 & Hin2 & Hout2).
    assert (He2 : empty (with_heap h s) = (Return tt, with_heap h2 (with_heap h s))).
    { unfold empty.
      now rewrite (bind_return _ _ _ _ _ (this_index_some (with_heap h s) idx Hidx)). }
    rewrite He. simpl. rewrite He2. simpl. repeat split.
    intros l. destruct (in_dec Nat.eq_dec l (files idx)) as [Hl | Hl].
    + rewrite (Hin2 l Hl). simpl. now rewrite (Hin l Hl).
    + now rewrite (Hout2 l Hl).
  - assert (He : empty s = (Throw TypeError, s)).
    { unfold empty. exact (bind_throw _ _ _ _ _ (this_index_none s Hidx)). }
    rewrite He. simpl. rewrite He. simpl. repeat split.
Qed.

End Sequences.

(** ** Construction and the index request *)

Section Construction.

Variable net : list request -> request -> fetch_outcome.

Lemma normalize_baseUrl_kept (b : string) :
  at_last b = Some "/" -> normalize_baseUrl b = b.
Proof.
  intros H. destruct (normalize_baseUrl_cases b) as (_ & Hkept & _).
  apply Hkept; [| exact H]. intros ->. discriminate.
Qed.

(** The index URL is requested as it is given, without the URL prefix:
    a URL index makes the constructor issue one GET for it (for
    ["index.json"] when the option is omitted or empty) and leaves the
    object pending with no index; an inline listing makes it issue no
    request and never leaves it pending. *)
Theorem constructor_index_request (opts : FetchOptions) :
  (opt_index opts = None \/ opt_index opts = Some (inl "") ->
   requests (constructor net opts) = [mkRequest GET "index.json"]
   /\ _ready (constructor net opts) = Pending (net [] (mkRequest GET "index.json"))
   /\ _index (constructor net opts) = None)
  /\ (forall url, url <> "" -> opt_index opts = Some (inl url) ->
        requests (constructor net opts) = [mkRequest GET url]
        /\ _ready (constructor net opts) = Pending (net [] (mkRequest GET url))
        /\ _index (constructor net opts) = None)
  /\ (forall tree, opt_index opts = Some (inr tree) ->
        requests (constructor net opts) = []
        /\ (forall o, _ready (constructor net opts) <> Pending o)).
Proof.
  unfold constructor. repeat split.
  - destruct H as [-> | ->]; reflexivity.
  - destruct H as [-> | ->]; reflexivity.
  - destruct H as [-> | ->]; reflexivity.
  - rewrite H0. destruct url; [contradiction | reflexivity].
  - rewrite H0. destruct url; [contradiction | reflexivity].
  - rewrite H0. destruct url; [contradiction | reflexivity].
  - rewrite H. simpl. unfold settle_with.
    destruct (set_index_result tree blank) as [-> | (idx & h & n & -> & _)]; reflexivity.
  - rewrite H. simpl. unfold settle_with.
    destruct (set_index_result tree blank) as [-> | (idx & h & n & -> & _)]; discriminate.
Qed.

(** A non-empty base URL and a path are joined by exactly one separator,
    whether or not the base ends with one and whether or not the path
    starts with one; without a base URL the path is requested relative,
    its leading separator removed. *)
Theorem remote_path_joined_by_one_separator (i : option (string + ListingTree))
    (b p : string) :
  b <> "" ->
  at_last b <> Some "/" ->
  charAt p 0 <> "/" ->
  fst (_getRemotePath p (constructor net (mkOptions i (Some b)))) = Return ((b ++ "/") ++ p)
  /\ fst (_getRemotePath (String "/" p) (constructor net (mkOptions i (Some b))))
     = Return ((b ++ "/") ++ p)
  /\ fst (_getRemotePath p (constructor net (mkOptions i (Some (b ++ "/")))))
     = Return ((b ++ "/") ++ p)
  /\ fst (_getRemotePath (String "/" p) (constructor net (mkOptions i (Some (b ++ "/")))))
     = Return ((b ++ "/") ++ p)
  /\ fst (_getRemotePath (String "/" p) (constructor net (mkOptions i None))) = Return p.
Proof.
  intros Hb Hlast Hp.
  destruct (normalize_baseUrl_cases b) as (_ & _ & Happ).
  assert (P1 : prefixUrl (constructor net (mkOptions i (Some b))) = b ++ "/").
  { rewrite prefixUrl_constructor. simpl. now apply Happ. }
  assert (P2 : prefixUrl (constructor net (mkOptions i (Some (b ++ "/")))) = b ++ "/").
  { rewrite prefixUrl_constructor. simpl. apply normalize_baseUrl_kept, at_last_append_sep. }
  rewrite !getRemotePath_remote_url. simpl fst.
  rewrite !remote_url_strips_separator, !(remote_url_relative _ p Hp), P1, P2.
  repeat split.
Qed.

(** A failed download of the index (transport error, unsuccessful status
    or unreadable body) rejects the readiness promise with [EIO] and
    leaves the object without an index; nothing else changes. *)
Theorem index_load_failure_rejects_EIO (s : FetchFS) (o : fetch_outcome) :
  _ready s = Pending o ->
  listing_of o = None ->
  ready (settle s) = (Throw (ApiError EIO), settle s)
  /\ _ready (settle s) = Rejected (ApiError EIO)
  /\ _index (settle s) = _index s
  /\ heap (settle s) = heap s
  /\ requests (settle s) = requests s.
Proof.
  intros Hp Hnone. unfold settle. rewrite Hp.
  assert (E : settle_with (loadIndex_settled o) s = with_ready (Rejected (ApiError EIO)) s).
  { unfold settle_with, loadIndex_settled, fetchFile_settled, convertError, bind, throw, ret.
    unfold listing_of in Hnone.
    destruct o as [| r]; [reflexivity |].
    destruct (ok r); simpl; [| reflexivity].
    rewrite Hnone. reflexivity. }
  rewrite E. repeat split.
Qed.

(** In the revision of [part_000] every failed index load rejects with
    [EINVAL], and the status of the response is not looked at: a response
    whose body parses is indexed even when it is not a success, where
    [loadIndex] rejects it with [EIO]. *)
Theorem Zen_index_load_ignores_status (s : FetchFS) (o : fetch_outcome) :
  _ready s = Pending o ->
  (forall e, _ready (Zen.settle s) = Rejected e -> e = ApiError EINVAL)
  /\ (forall r j, o = Resolved r -> json r = Some j ->
        Zen.settle s = settle_with (set_index j) s)
  /\ (forall r, o = Resolved r -> ok r = false ->
        _ready (settle s) = Rejected (ApiError EIO)).
Proof.
  intros Hp. unfold Zen.settle, settle. rewrite Hp. repeat split.
  - intros e. unfold settle_with, Zen._initialize_settled, throw.
    destruct o as [| r]; simpl; [now intros [= <-] |].
    destruct (json r) as [j |]; simpl; [| now intros [= <-]].
    destruct (set_index_result j s) as [-> | (idx & h & n & -> & _)]; simpl.
    + now intros [= <-].
    + discriminate.
  - intros r j -> Hj. unfold Zen._initialize_settled. now rewrite Hj.
  - intros r -> Hok. unfold settle_with, loadIndex_settled, fetchFile_settled, bind, throw.
    rewrite Hok. reflexivity.
Qed.

End Construction.

Lemma digit_of_nonneg (c : ascii) (d : Z) : digit_of c = Some d -> 0 <= d.
Proof.
  unfold digit_of.
  destruct ((48 <=? nat_of_ascii c)%nat && (nat_of_ascii c <=? 57)%nat); [| discriminate].
  intros [= <-]. apply Nat2Z.is_nonneg.
Qed.

Lemma digits_all_digits (t : string) :
  forall a, 0 <= a -> all_digits t = true ->
  exists n, 0 <= n /\ digits t (Some a) = Some n.
Proof.
  induction t as [| c t IH]; intros a Ha Ht; cbn [digits all_digits] in *.
  - exists a. auto.
  - destruct (digit_of c) as [d |] eqn:Hd; [| discriminate].
    apply IH; [| exact Ht].
    pose proof (digit_of_nonneg c d Hd). lia.
Qed.

Lemma parseInt_digit_first (c : ascii) (d : Z) (t : string) :
  digit_of c = Some d ->
  parseInt (String c t)
  = match digits t (Some d) with
    | Some n => Num (1 * n)
    | None => NaN
    end.
Proof.
  destruct c as [[] [] [] [] [] [] [] []]; intros H; vm_compute in H; try discriminate;
    injection H as <-; vm_compute; reflexivity.
Qed.

(** A non-empty string of decimal digits parses to a number that is not
    negative. *)
Lemma parseInt_all_digits (v : string) :
  v <> "" -> all_digits v = true -> exists n, 0 <= n /\ parseInt v = Num n.
Proof.
  intros Hne Hdig. destruct v as [| c t]; [contradiction |].
  cbn [all_digits] in Hdig.
  destruct (digit_of c) as [d |] eqn:Hd; [| discriminate].
  pose proof (digit_of_nonneg c d Hd) as Hd0.
  destruct (digits_all_digits t d Hd0 Hdig) as (n & Hn & Hrun).
  exists n. split; [exact Hn |].
  rewrite (parseInt_digit_first c d t Hd), Hrun. f_equal. lia.
Qed.

Section Permanence.

Variable net : list request -> request -> fetch_outcome.
Variable Cred : Type.
Variable hasAccess : Z -> Z -> Cred -> bool.

(** A rejected readiness promise stays rejected: after any further
    calls, [loadIndex] included, [ready] throws the same error and the
    completion step has nothing left to do.  If the index was left unset
    it stays unset as long as [loadIndex] is not called, and [stat] ends
    in a [TypeError] on every path. *)
Theorem failed_load_is_permanent (s : FetchFS) (e : error) (cs : list (call Cred)) :
  _ready s = Rejected e ->
  ready (run_all net hasAccess cs s) = (Throw e, run_all net hasAccess cs s)
  /\ settle (run_all net hasAccess cs s) = run_all net hasAccess cs s
  /\ (_index s = None ->
      without_loadIndex cs = true ->
      forall path cred,
        stat net hasAccess path cred (run_all net hasAccess cs s)
        = (Throw TypeError, run_all net hasAccess cs s)).
Proof.
  intros Hrej.
  assert (Hr : _ready (run_all net hasAccess cs s) = Rejected e).
  { revert s Hrej. induction cs as [| c r IH]; intros s Hrej; simpl; [exact Hrej |].
    apply IH. destruct (run_keeps_fields net Cred hasAccess c s) as (_ & ->). exact Hrej. }
  repeat split.
  - unfold ready, await_ready. now rewrite Hr.
  - unfold settle. now rewrite Hr.
  - intros Hnone Hcs path cred.
    destruct (run_all_same_object net Cred hasAccess cs s Hcs) as (_ & Hi & _).
    rewrite Hnone in Hi.
    unfold stat. exact (bind_throw _ _ _ _ _ (this_index_none _ Hi)).
Qed.

(** A [Content-Length] made of decimal digits is always cached: [stat]
    stores its value, which is not negative, and a second [stat] returns
    without a request. *)
Theorem digit_Content_Length_is_cached (s : FetchFS) (idx : FileIndex) (path : string)
    (cred : Cred) (l : loc) (r : Response) (v : string) :
  _index s = Some idx ->
  getInode idx path = Some (IndexFileInode l) ->
  hasAccess (mode (heap s l)) R_OK cred = true ->
  lt0 (size (heap s l)) = true ->
  net (requests s) (mkRequest HEAD (remote_url s path)) = Resolved r ->
  ok r = true ->
  contentLength r = Some v ->
  v <> "" ->
  all_digits v = true ->
  exists n : Z,
    0 <= n
    /\ stat net hasAccess path cred s = (Return l, sized s path l (Num n))
    /\ stat net hasAccess path cred (sized s path l (Num n))
       = (Return l, sized s path l (Num n)).
Proof.
  intros Hidx Hfile Hacc Hneg Hnet Hok Hv Hne Hdig.
  destruct (parseInt_all_digits v Hne Hdig) as (n & Hn & Hparse). exists n. split; [exact Hn |].
  pose proof (stat_fetches_size net Cred hasAccess s idx path cred l r
                Hidx Hfile Hacc Hneg Hnet Hok) as H1.
  rewrite Hv in H1.
  assert (Hor : or_default (Some v) "-1" = v) by (destruct v; [contradiction | reflexivity]).
  rewrite Hor, Hparse in H1. split; [exact H1 |].
  destruct (sized_fields s path l (Num n)) as (_ & Hi & _ & Hl & _).
  apply (stat_known_size net Cred hasAccess _ idx path cred l).
  - now rewrite Hi.
  - exact Hfile.
  - now rewrite Hl.
  - rewrite Hl. simpl. apply Z.ltb_ge. exact Hn.
Qed.

End Permanence.

(** ** The properties above on the demo site *)

Lemma stat_throws_exactly_witness :
  thrown (stat demo_net anyone "/missing" tt demo_fs) = Some (ApiError ENOENT).
Proof.
  destruct (stat_throws_exactly demo_net unit anyone demo_fs demo_index "/missing" tt eq_refl)
    as ((_ & H) & _).
  apply H. reflexivity.
Defined.

Lemma stat_requests_exactly_when_witness :
  requests (snd (stat demo_net anyone "/a.txt" tt demo_fs))
  = mkRequest HEAD (remote_url demo_fs "/a.txt") :: requests demo_fs.
Proof.
  destruct (stat_requests_exactly_when demo_net unit anyone demo_fs demo_index "/a.txt" tt
              eq_refl) as (_ & _ & H).
  apply H. exists 1%nat. repeat split.
Defined.

Lemma stat_HEAD_failure_not_cached_witness :
  stat down_net anyone "/a.txt" tt demo_fs
  = (Throw (ApiError EIO), with_request (mkRequest HEAD (remote_url demo_fs "/a.txt")) demo_fs)
  /\ heap (snd (stat down_net anyone "/a.txt" tt demo_fs)) = heap demo_fs
  /\ requests (snd (stat down_net anyone "/a.txt" tt
                      (snd (stat down_net anyone "/a.txt" tt demo_fs))))
     = mkRequest HEAD (remote_url demo_fs "/a.txt")
         :: mkRequest HEAD (remote_url demo_fs "/a.txt") :: requests demo_fs.
Proof.
  apply (stat_HEAD_failure_not_cached down_net unit anyone demo_fs demo_index "/a.txt" tt
           1%nat); reflexivity.
Defined.

Lemma openFile_requests_exactly_when_witness :
  requests (snd (openFile demo_net anyone "/dir/b.txt" read_flag tt demo_fs))
  = mkRequest GET (remote_url demo_fs "/dir/b.txt") :: requests demo_fs.
Proof.
  destruct (openFile_requests_exactly_when demo_net unit anyone demo_fs demo_index
              "/dir/b.txt" read_flag tt eq_refl) as (_ & _ & H).
  apply H. split; [reflexivity |]. exists 3%nat. repeat split.
Defined.

Lemma openFile_GET_failure_not_cached_witness :
  openFile not_found_net anyone "/a.txt" read_flag tt demo_fs
  = (Throw (ApiError EIO), with_request (mkRequest GET (remote_url demo_fs "/a.txt")) demo_fs)
  /\ heap (snd (openFile not_found_net anyone "/a.txt" read_flag tt demo_fs)) = heap demo_fs
  /\ requests (snd (openFile not_found_net anyone "/a.txt" read_flag tt
                      (snd (openFile not_found_net anyone "/a.txt" read_flag tt demo_fs))))
     = mkRequest GET (remote_url demo_fs "/a.txt")
         :: mkRequest GET (remote_url demo_fs "/a.txt") :: requests demo_fs.
Proof.
  apply (openFile_GET_failure_not_cached not_found_net unit anyone demo_fs demo_index "/a.txt"
           read_flag tt 1%nat); reflexivity.
Defined.

Lemma openFile_throws_exactly_witness :
  thrown (openFile demo_net no_one "/a.txt" read_flag tt demo_fs) = Some (ApiError EACCES).
Proof.
  destruct (openFile_throws_exactly demo_net unit no_one demo_fs demo_index "/a.txt"
              read_flag tt eq_refl) as (_ & _ & (_ & H) & _).
  apply H. split; [reflexivity |]. exists (IndexFileInode 1%nat). split; reflexivity.
Defined.

Lemma stat_of_cached_file_witness :
  stat demo_net anyone "/a.txt" tt opened_fs = (Return 1%nat, opened_fs)
  /\ size (heap opened_fs 1%nat) = length_of hi.
Proof.
  apply (stat_of_cached_file demo_net unit anyone opened_fs demo_index "/a.txt" tt 1%nat hi).
  - exact (reach_call demo_net unit anyone (Call_openFile "/a.txt" read_flag tt) demo_fs
             (reach_new demo_net unit anyone demo_options)).
  - reflexivity.
  - reflexivity.
  - reflexivity.
  - reflexivity.
Defined.

Lemma stat_after_empty_reports_old_size_witness :
  fst (empty opened_fs) = Return tt
  /\ fileData (heap (snd (empty opened_fs)) 1%nat) = None
  /\ size (heap (snd (empty opened_fs)) 1%nat) = size (heap opened_fs 1%nat)
  /\ stat demo_net anyone "/a.txt" tt (snd (empty opened_fs))
     = (Return 1%nat, snd (empty opened_fs)).
Proof.
  apply (stat_after_empty_reports_old_size demo_net unit anyone opened_fs demo_index "/a.txt"
           tt 1%nat); reflexivity.
Defined.

Lemma constructor_index_request_witness :
  requests pending_fs = [mkRequest GET "index.json"]
  /\ _ready pending_fs = Pending (demo_net [] (mkRequest GET "index.json"))
  /\ _index pending_fs = None.
Proof.
  destruct (constructor_index_request demo_net (mkOptions None None)) as (H & _).
  apply H. left. reflexivity.
Defined.

Lemma remote_path_joined_by_one_separator_witness :
  fst (_getRemotePath "/a.txt" demo_fs) = Return (("https://x" ++ "/") ++ "a.txt").
Proof.
  destruct (remote_path_joined_by_one_separator demo_net (Some (inr demo_listing))
              "https://x" "a.txt") as (_ & H & _).
  - discriminate.
  - vm_compute. discriminate.
  - vm_compute. discriminate.
  - exact H.
Defined.

Lemma index_load_failure_rejects_EIO_witness :
  ready (settle (constructor down_net (mkOptions None None)))
  = (Throw (ApiError EIO), settle (constructor down_net (mkOptions None None)))
  /\ _ready (settle (constructor down_net (mkOptions None None))) = Rejected (ApiError EIO)
  /\ _index (settle (constructor down_net (mkOptions None None)))
     = _index (constructor down_net (mkOptions None None))
  /\ heap (settle (constructor down_net (mkOptions None None)))
     = heap (constructor down_net (mkOptions None None))
  /\ requests (settle (constructor down_net (mkOptions None None)))
     = requests (constructor down_net (mkOptions None None)).
Proof.
  apply (index_load_failure_rejects_EIO (constructor down_net (mkOptions None None))
           NetworkError); reflexivity.
Defined.

Lemma Zen_index_load_ignores_status_witness :
  Zen.settle (Zen.constructor not_found_net (mkOptions None None))
  = settle_with (set_index demo_listing) (Zen.constructor not_found_net (mkOptions None None))
  /\ _ready (settle (Zen.constructor not_found_net (mkOptions None None)))
     = Rejected (ApiError EIO).
Proof.
  destruct (Zen_index_load_ignores_status
              (Zen.constructor not_found_net (mkOptions None None))
              (Resolved (mkResponse false 404 None None (Some demo_listing))) eq_refl)
    as (_ & H1 & H2).
  split.
  - exact (H1 _ demo_listing eq_refl eq_refl).
  - exact (H2 _ eq_refl eq_refl).
Defined.

Lemma failed_load_is_permanent_witness :
  ready (run_all down_net anyone [Call_empty] (settle (constructor down_net (mkOptions None None))))
  = (Throw (ApiError EIO),
     run_all down_net anyone [Call_empty] (settle (constructor down_net (mkOptions None None))))
  /\ stat down_net anyone "/a.txt" tt
       (run_all down_net anyone [Call_empty] (settle (constructor down_net (mkOptions None None))))
     = (Throw TypeError,
        run_all down_net anyone [Call_empty]
          (settle (constructor down_net (mkOptions None None)))).
Proof.
  destruct (failed_load_is_permanent down_net unit anyone
              (settle (constructor down_net (mkOptions None None))) (ApiError EIO)
              [Call_empty] eq_refl) as (H1 & _ & H3).
  split; [exact H1 |].
  exact (H3 eq_refl eq_refl "/a.txt" tt).
Defined.

Lemma digit_Content_Length_is_cached_witness :
  exists n : Z,
    0 <= n
    /\ stat demo_net anyone "/a.txt" tt demo_fs = (Return 1%nat, sized demo_fs "/a.txt" 1%nat (Num n))
    /\ stat demo_net anyone "/a.txt" tt (sized demo_fs "/a.txt" 1%nat (Num n))
       = (Return 1%nat, sized demo_fs "/a.txt" 1%nat (Num n)).
Proof.
  apply (digit_Content_Length_is_cached demo_net unit anyone demo_fs demo_index "/a.txt" tt
           1%nat (mkResponse true 200 (Some "2") (Some hi) (Some demo_listing)) "2");
    try reflexivity.
  discriminate.
Defined.




(** ** Calls that overlap *)

Section Overlapping.

Variable net : list request -> request -> fetch_outcome.
Variable Cred : Type.
Variable hasAccess : Z -> Z -> Cred -> bool.

(** [stat] is its first part followed, with nothing in between, by its
    second part. *)
Lemma stat_in_two_steps (path : string) (cred : Cred) (s : FetchFS) :
  stat net hasAccess path cred s
  = match stat_start net hasAccess path cred s with
    | (Return (inl l), s') => (Return l, s')
    | (Return (inr (Awaiting_size stats o)), s') => stat_resume stats o s'
    | (Return (inr _), s') => (Throw TypeError, s')
    | (Throw e, s') => (Throw e, s')
    | (Suspended, s') => (Suspended, s')
    end.
Proof.
  unfold stat, stat_start, bind, this_index.
  destruct (_index s) as [idx |]; [| reflexivity].
  destruct (getInode idx path) as [[l | l cs] |]; unfold_method; simpl; [| | reflexivity].
  - destruct (hasAccess (mode (heap s l)) R_OK cred); simpl; [| reflexivity].
    destruct (lt0 (size (heap s l))); simpl; [| reflexivity].
    unfold stat_resume, fetchSize_settled, convertError, bind, throw, ret, write. simpl.
    destruct (net (requests s) (mkRequest HEAD (prefixUrl s ++ _))) as [| r]; simpl;
      [reflexivity |].
    destruct (ok r); reflexivity.
  - destruct (hasAccess (mode (heap s l)) R_OK cred); reflexivity.
Qed.

(** [openFile] is its first part followed, with nothing in between, by
    its second part. *)
Lemma openFile_in_two_steps (path : string) (flag : FileFlag) (cred : Cred) (s : FetchFS) :
  openFile net hasAccess path flag cred s
  = match openFile_start net hasAccess path flag cred s with
    | (Return (inl fd), s') => (Return fd, s')
    | (Return (inr (Awaiting_bytes p f stats o)), s') => openFile_resume p f stats o s'
    | (Return (inr _), s') => (Throw TypeError, s')
    | (Throw e, s') => (Throw e, s')
    | (Suspended, s') => (Suspended, s')
    end.
Proof.
  unfold openFile, openFile_start.
  destruct (isWriteable flag); [reflexivity |].
  unfold bind, this_index.
  destruct (_index s) as [idx |]; [| reflexivity].
  destruct (getInode idx path) as [[l | l cs] |]; unfold_method; simpl; [| | reflexivity].
  - destruct (hasAccess (mode (heap s l)) (flag_mode flag) cred); simpl; [| reflexivity].
    destruct (fileData (heap s l)); simpl; [reflexivity |].
    unfold openFile_resume, fetchFile_settled, convertError, bind, throw, ret, write, read.
    simpl.
    destruct (net (requests s) (mkRequest GET (prefixUrl s ++ _))) as [| r]; simpl;
      [reflexivity |].
    destruct (ok r); simpl; [| reflexivity].
    destruct (arrayBuffer r); reflexivity.
  - destruct (hasAccess (mode (heap s l)) (flag_mode flag) cred); reflexivity.
Qed.

(** A call that runs with nothing in between leaves the state its two
    parts leave: whole calls are the special case of parts that do not
    overlap. *)
Lemma run_in_two_steps (c : call Cred) (s : FetchFS) :
  run net hasAccess c s
  = match start net hasAccess c s with
    | (s', Some k) => resume k s'
    | (s', None) => s'
    end.
Proof.
  destruct c as [| index | path cred | path flag cred | path flag cred | path buf |];
    simpl; try reflexivity.
  - destruct index as [url | tree]; unfold loadIndex, loadIndex_start, left_pending,
      fetchFile, fetch, bind, ret; simpl.
    + reflexivity.
    + destruct (set_index tree s) as [[[] | e |] s']; reflexivity.
  - rewrite stat_in_two_steps. unfold left_pending.
    destruct (stat_start net hasAccess path cred s) as [[[l | k] | e |] s'] eqn:E; simpl;
      try reflexivity.
    destruct k as [stats o | p f stats o | o]; try reflexivity; exfalso; revert E;
      unfold stat_start, bind, this_index;
      (destruct (_index s) as [idx |]; [| discriminate]);
      (destruct (getInode idx path) as [[l | l cs] |]; unfold_method; simpl;
       [| | discriminate]);
      destruct (hasAccess (mode (heap s l)) R_OK cred); simpl; try discriminate;
      destruct (lt0 (size (heap s l))); simpl; discriminate.
  - rewrite openFile_in_two_steps. unfold left_pending.
    destruct (openFile_start net hasAccess path flag cred s) as [[[l | k] | e |] s'] eqn:E;
      simpl; try reflexivity.
    destruct k as [stats o | p f stats o | o]; try reflexivity; exfalso; revert E;
      unfold openFile_start;
      (destruct (isWriteable flag); [discriminate |]);
      unfold bind, this_index;
      (destruct (_index s) as [idx |]; [| discriminate]);
      (destruct (getInode idx path) as [[l | l cs] |]; unfold_method; simpl;
       [| | discriminate]);
      destruct (hasAccess (mode (heap s l)) (flag_mode flag) cred); simpl; try discriminate;
      destruct (fileData (heap s l)); simpl; discriminate.
  - rewrite readFile_state, openFile_in_two_steps. unfold left_pending.
    destruct (openFile_start net hasAccess path flag cred s) as [[[l | k] | e |] s'] eqn:E;
      simpl; try reflexivity.
    destruct k as [stats o | p f stats o | o]; try reflexivity; exfalso; revert E;
      unfold openFile_start;
      (destruct (isWriteable flag); [discriminate |]);
      unfold bind, this_index;
      (destruct (_index s) as [idx |]; [| discriminate]);
      (destruct (getInode idx path) as [[l | l cs] |]; unfold_method; simpl;
       [| | discriminate]);
      destruct (hasAccess (mode (heap s l)) (flag_mode flag) cred); simpl; try discriminate;
      destruct (fileData (heap s l)); simpl; discriminate.
Qed.

Lemma stat_start_effect (path : string) (cred : Cred) (s : FetchFS) :
  lazy_effect s (snd (stat_start net hasAccess path cred s)).
Proof.
  unfold stat_start, bind, this_index.
  destruct (_index s) as [idx |]; [| apply effect_none].
  destruct (getInode idx path) as [[l | l cs] |]; unfold_method; simpl;
    [| | apply effect_none].
  - destruct (hasAccess (mode (heap s l)) R_OK cred); simpl; [| apply effect_none].
    destruct (lt0 (size (heap s l))); simpl; [apply effect_request | apply effect_none].
  - destruct (hasAccess (mode (heap s l)) R_OK cred); apply effect_none.
Qed.

Lemma openFile_start_effect (path : string) (flag : FileFlag) (cred : Cred) (s : FetchFS) :
  lazy_effect s (snd (openFile_start net hasAccess path flag cred s)).
Proof.
  unfold openFile_start.
  destruct (isWriteable flag); [apply effect_none |].
  unfold bind, this_index.
  destruct (_index s) as [idx |]; [| apply effect_none].
  destruct (getInode idx path) as [[l | l cs] |]; unfold_method; simpl;
    [| | apply effect_none].
  - destruct (hasAccess (mode (heap s l)) (flag_mode flag) cred); simpl;
      [| apply effect_none].
    destruct (fileData (heap s l)); simpl; [apply effect_none | apply effect_request].
  - destruct (hasAccess (mode (heap s l)) (flag_mode flag) cred); apply effect_none.
Qed.

Lemma indexing_cache_consistent (s s' : FetchFS) :
  indexing_effect s s' -> cache_consistent s -> cache_consistent s'.
Proof.
  intros [| idx h n _ Hfresh] Hs; [exact Hs |].
  intros idx' [= <-] l Hl b Hb. simpl in Hb. rewrite (Hfresh l Hl) in Hb. discriminate.
Qed.

Lemma run_cache_consistent (c : call Cred) (s : FetchFS) :
  cache_consistent s -> cache_consistent (run net hasAccess c s).
Proof.
  intros Hs. destruct (is_loadIndex c) eqn:Hc.
  - destruct c; try discriminate. simpl.
    destruct (loadIndex_effect net index s) as (s0 & [-> | [r ->]] & He);
      exact (indexing_cache_consistent _ _ He Hs).
  - exact (effect_cache_consistent _ _ (run_effect net Cred hasAccess c s Hc) Hs).
Qed.

(** C3 (amended): the invariant that a file node whose cached bytes are
    set has their length as its size is kept by every call that runs to
    its end with no other call in between, and, when calls overlap, by
    every part of a call: the part of any call up to its [await], the
    second part of [openFile] and [readFile] (which writes size and bytes
    together), the second part of [loadIndex], all of [preloadFile] and
    of [empty], and the second part of [stat] provided the node has no
    cached bytes at that moment.  *)
Theorem cache_consistent_preserved (s : FetchFS) :
  cache_consistent s ->
  (forall c, cache_consistent (run net hasAccess c s))
  /\ (forall c, cache_consistent (fst (start net hasAccess c s)))
  /\ (forall path flag stats o,
        cache_consistent (resume (Awaiting_bytes path flag stats o) s))
  /\ (forall o, cache_consistent (resume (Awaiting_listing o) s))
  /\ (forall stats o,
        fileData (heap s stats) = None ->
        cache_consistent (resume (Awaiting_size stats o) s)).
Proof.
  intros Hs. split; [| split; [| split; [| split]]].
  - intros c. now apply run_cache_consistent.
  - intros [| index | path cred | path flag cred | path flag cred | path buf |]; simpl.
    + now rewrite ready_state.
    + destruct index as [url | tree]; unfold loadIndex_start, fetch, bind, ret; simpl.
      * exact Hs.
      * pose proof (set_index_indexing tree s) as He.
        destruct (set_index tree s) as [[[] | e |] s']; simpl in *;
          exact (indexing_cache_consistent _ _ He Hs).
    + exact (effect_cache_consistent _ _ (effect_lazy _ _ (stat_start_effect path cred s)) Hs).
    + exact (effect_cache_consistent _ _
               (effect_lazy _ _ (openFile_start_effect path flag cred s)) Hs).
    + exact (effect_cache_consistent _ _
               (effect_lazy _ _ (openFile_start_effect path flag cred s)) Hs).
    + exact (effect_cache_consistent _ _ (preloadFile_effect s path buf) Hs).
    + exact (effect_cache_consistent _ _ (empty_effect s) Hs).
  - intros path flag stats o. simpl.
    apply (effect_cache_consistent s); [| exact Hs].
    unfold openFile_resume, fetchFile_settled, convertError, bind, throw, ret, write, read.
    destruct o as [| r]; simpl; [apply effect_lazy, effect_none |].
    destruct (ok r); simpl; [| apply effect_lazy, effect_none].
    destruct (arrayBuffer r) as [b |]; simpl; [| apply effect_lazy, effect_none].
    rewrite heap_set_same. apply (effect_preloaded s stats b).
  - intros o. simpl.
    exact (indexing_cache_consistent _ _ (loadIndex_settled_indexing o s) Hs).
  - intros stats o Hnone. simpl.
    unfold stat_resume, fetchSize_settled, convertError, bind, throw, ret, write.
    destruct o as [| r]; simpl; [exact Hs |].
    destruct (ok r); simpl; [| exact Hs].
    intros idx Hidx l Hl. simpl. unfold heap_set.
    destruct (Nat.eqb_spec l stats) as [-> | _]; [| exact (Hs idx Hidx l Hl)].
    intros b Hb. simpl in Hb. rewrite Hnone in Hb. discriminate.
Qed.

End Overlapping.

Lemma cache_consistent_preserved_witness :
  fileData (heap opened_fs 1%nat) = Some hi
  /\ (forall c : call unit, cache_consistent (run demo_net anyone c opened_fs))
  /\ (forall c : call unit, cache_consistent (fst (start demo_net anyone c opened_fs)))
  /\ (forall path flag stats o,
        cache_consistent (resume (Awaiting_bytes path flag stats o) opened_fs))
  /\ (forall o, cache_consistent (resume (Awaiting_listing o) opened_fs))
  /\ (forall stats o,
        fileData (heap opened_fs stats) = None ->
        cache_consistent (resume (Awaiting_size stats o) opened_fs)).
Proof.
  split; [reflexivity |].
  apply (cache_consistent_preserved demo_net unit anyone opened_fs).
  intros idx Hidx l Hl b Hb. injection Hidx as <-. simpl in Hl.
  destruct Hl as [<- | [<- | []]]; [injection Hb as <-; reflexivity | discriminate].
Defined.

(** C3 fails when calls overlap: a [stat] suspended at its HEAD request
    and overtaken by an [openFile] of the same file writes its answer
    without a second look, and leaves cached bytes with a size that is
    not their length. *)
Lemma stat_overtaken_by_openFile_leaves_stale_size :
  cache_consistent demo_fs
  /\ stat_suspended
     = (with_request (mkRequest HEAD "https://x/a.txt") demo_fs,
        Some (Awaiting_size 1%nat (silent_net [] (mkRequest HEAD "https://x/a.txt"))))
  /\ cache_consistent
       (run silent_net anyone (Call_openFile "/a.txt" read_flag tt) (fst stat_suspended))
  /\ _index overtaken_fs = Some demo_index
  /\ In 1%nat (files demo_index)
  /\ fileData (heap overtaken_fs 1%nat) = Some hi
  /\ size (heap overtaken_fs 1%nat) = Num (-1)
  /\ ~ cache_consistent overtaken_fs.
Proof.
  split; [exact demo_fs_consistent |].
  split; [reflexivity |].
  split.
  { intros idx Hidx l Hl b Hb. injection Hidx as <-. simpl in Hl.
    destruct Hl as [<- | [<- | []]]; [injection Hb as <-; reflexivity | discriminate]. }
  split; [reflexivity |].
  split; [simpl; auto |].
  split; [reflexivity |].
  split; [reflexivity |].
  intros H.
  specialize (H demo_index eq_refl 1%nat (or_introl eq_refl) hi eq_refl).
  discriminate.
Qed.
